(** * TaskGroup: the sequential task-group scheduler of
      agents/src/beta/workflows/task_group.ts

    A shallow embedding of [TaskGroup.add], [TaskGroup.onEnter] and
    [TaskGroup.buildOutOfScopeTool], followed by the properties the
    specification states about them.

    Conventions of the embedding.
    - A JavaScript [Map] and [Set] iterate in insertion order, so both are
      lists: [JsMap.t] is an association list with unique keys and
      [JsSet.t] a duplicate-free list.
    - [taskResults] and [taskRepr] are plain objects written and read by
      key: [JsObject.t] holds their own properties, and an assignment at
      the key [__proto__] adds none.
    - The body of the [while] loop is the function [iteration]; the loop is
      [loop], which takes the number of iterations it may perform.
    - A task is opaque to the scheduler.  What it and its external actor do
      while [run()] is pending is a list of [ActorEvent]s, supplied by the
      factory. *)

From Stdlib Require Import Ascii.
From stdpp Require Import base strings list gmap pretty.

Open Scope string_scope.
Open Scope list_scope.
Open Scope nat_scope.

(** ** JavaScript containers *)

Module JsMap.
(** [Map<string, V>]: insertion ordered, one entry per key. *)
Abbreviation t V := (list (string * V)) (only parsing).

Definition empty {V} : t V := [].

Fixpoint get {V} (k : string) (m : t V) : option V :=
  match m with
  | [] => None
  | (k', v) :: m' => if decide (k = k') then Some v else get k m'
  end.

Definition has {V} (k : string) (m : t V) : bool :=
  match get k m with Some _ => true | None => false end.

(** [Map.prototype.set]: an existing key keeps its place and takes the
    new value, a new key goes to the end. *)
Fixpoint set {V} (k : string) (v : V) (m : t V) : t V :=
  match m with
  | [] => [(k, v)]
  | (k', v') :: m' =>
      if decide (k = k') then (k', v) :: m' else (k', v') :: set k v m'
  end.

Definition keys {V} (m : t V) : list string := m.*1.
End JsMap.

Module JsSet.
(** [Set<string>]: insertion ordered, no duplicates. *)
Abbreviation t := (list string) (only parsing).

Definition empty : t := [].

Definition has (x : string) (s : t) : bool := bool_decide (x ∈ s).

(** [Set.prototype.add] *)
Definition add (x : string) (s : t) : t :=
  if has x s then s else s ++ [x].

(** [Set.prototype.delete] *)
Definition delete (x : string) (s : t) : t :=
  filter (λ y, y ≠ x) s.

Definition size (s : t) : nat := length s.

(** [new Set(s)] *)
Definition copy (s : t) : t := s.
End JsSet.

Module JsObject.
(** A plain object [{}] used as a dictionary, as its own properties.  The
    key [__proto__] is the accessor that [Object.prototype] defines: an
    assignment there calls the setter and adds no own property.  The order
    in which the properties are enumerated (integer-like keys first) is
    not part of the embedding. *)
Abbreviation t V := (gmap string V) (only parsing).

Definition empty {V} : t V := ∅.

(** [obj[k] = v] *)
Definition set {V} (k : string) (v : V) (obj : t V) : t V :=
  if decide (k = "__proto__") then obj else <[k := v]> obj.
End JsObject.

(** ** Values, errors and task outcomes *)

(** A task result has type [unknown]; the tests use strings, numbers and
    booleans. *)
Inductive JsValue :=
| JStr (s : string)
| JNum (n : Z)
| JBool (b : bool).

(** An [Error] instance that is not an [OutOfScopeError]. *)
Record JsError := mkError { err_name : string; err_message : string }.

(** [new Error(message)] *)
Definition new_Error (message : string) : JsError := mkError "Error" message.

(** What code outside this module can throw.  [OutOfScopeError] is not
    exported, so neither a task nor the completion callback can build one. *)
Inductive Failure :=
| FailError (e : JsError)
| FailOther (repr : string).   (* not an [Error]; [repr] is [String(e)] *)

(** The [e] of the [catch (e)] clause in [onEnter]. *)
Inductive Thrown :=
| OutOfScopeError (targetTaskIds : list string)
| Foreign (f : Failure).

(** [e instanceof Error ? e : new Error(String(e))] *)
Definition asError (f : Failure) : JsError :=
  match f with
  | FailError e => e
  | FailOther repr => new_Error repr
  end.

(** An entry of [taskResults]: a result, or under [returnExceptions] the
    caught value itself. *)
Inductive Entry :=
| EValue (v : JsValue)
| ECaught (f : Failure).

(** How [await task.run()] settles. *)
Inductive RunResult :=
| Resolves (v : JsValue)
| Rejects (e : Thrown).

(** What a tool call gives back to its caller. *)
Inductive ToolResult :=
| ToolReturns
| ToolThrows (message : string)        (* [throw new ToolError(message)] *)
| ArgumentsRejected (invalid : string). (* the arguments fail the schema *)

(** The shared chat context, as the texts of its items. *)
Definition ChatContext : Type := list string.

(** ** Tasks *)

(** The tool built by [buildOutOfScopeTool]: [taskRepr] is the object
    rendered into the description, [taskIdValues] the members of the
    [z.enum] of the parameter schema.  Its [execute] is the function
    [execute] below. *)
Record OutOfScopeTool := mkTool {
  taskRepr : JsObject.t string;
  taskIdValues : list string;
}.

(** What happens while [run()] is pending: the actor calls the
    [out_of_scope] tool, or the task completes itself with a value or an
    [Error]. *)
Inductive ActorEvent :=
| InvokeOutOfScope (task_ids : list string)
| Complete (r : JsValue + JsError).

(** What a factory returns: the events of the run, the completion the
    task reaches on its own when no event has settled it, and what its
    conversation makes of the chat context: [history c] is the context of
    the group once [run()] has settled, for a task that was handed the copy
    [c]. *)
Record TaskBehaviour := mkBehaviour {
  events : list ActorEvent;
  finally : JsValue + JsError;
  history : ChatContext → ChatContext;
}.

(** An [AgentTask] object: [settled] is how [run()] has settled, if it
    has. *)
Record AgentTask := mkTask {
  behaviour : TaskBehaviour;
  settled : option RunResult;
  out_of_scope : option OutOfScopeTool;   (* [toolCtx.out_of_scope] *)
  chat_ctx : ChatContext;                 (* [_chatCtx] *)
}.

(** Modelled from the spec: [AgentTask.done] of voice/agent.ts ("isDone"). *)
Definition done (t : AgentTask) : bool :=
  match settled t with Some _ => true | None => false end.

(** Modelled from the spec: [AgentTask.complete] of voice/agent.ts
    ("forceComplete(signal)"): the first completion marks the instance done
    and settles [run()]; a settled task stays as it is. *)
Definition complete (r : RunResult) (t : AgentTask) : AgentTask :=
  if done t then t
  else mkTask (behaviour t) (Some r) (out_of_scope t) (chat_ctx t).

(** Modelled from the spec: [AgentTask.updateTools] of voice/agent.ts
    ("installCapability(name, spec)"), at the key [out_of_scope]. *)
Definition updateTools (tool : OutOfScopeTool) (t : AgentTask) : AgentTask :=
  mkTask (behaviour t) (settled t) (Some tool) (chat_ctx t).

(** Modelled from the spec: [AgentTask.updateChatCtx] of voice/agent.ts
    ("updateSharedContext(copy)"). *)
Definition updateChatCtx (chatCtx : ChatContext) (t : AgentTask) : AgentTask :=
  mkTask (behaviour t) (settled t) (out_of_scope t) chatCtx.

(** A freshly constructed task. *)
Definition new_task (b : TaskBehaviour) : AgentTask :=
  mkTask b None None [].

Definition completion_result (r : JsValue + JsError) : RunResult :=
  match r with
  | inl v => Resolves v
  | inr e => Rejects (Foreign (FailError e))
  end.

(** ** The group *)

(** The factory is a closure: the argument stands for its hidden state and
    counts the instances the run has created before this one. *)
Record FactoryInfo := mkFactoryInfo {
  taskFactory : nat → TaskBehaviour;
  id : string;
  description : string;
}.

Record TaskCompletedEvent := mkEvent {
  agentTask : AgentTask;
  taskId : string;
  result : JsValue;
}.

(** [session.llm].  A standard [LLM] carries what [_summarize] does with
    the filtered context: the summary, or [String(e)] of what it throws. *)
Inductive SessionLlm :=
| StandardLLM (summarize : ChatContext → ChatContext + string)
| RealtimeModel
| NoLlm.

Record TaskGroup := mkTaskGroup {
  _summarizeChatCtx : bool;
  _returnExceptions : bool;
  _visitedTasks : JsSet.t;
  _registeredFactories : JsMap.t FactoryInfo;
  (* [None] when it returns, [Some f] when it throws [f]; the first
     argument is the instance count, as for the factories. *)
  _taskCompletedCallback : option (nat → TaskCompletedEvent → option Failure);
  _currentTask : option AgentTask;
  _chatCtx : ChatContext;
  session_llm : SessionLlm;
}.

Record TaskGroupOptions := mkOptions {
  summarizeChatCtx : option bool;
  returnExceptions : option bool;
  chatCtx : option ChatContext;
  onTaskCompleted : option (nat → TaskCompletedEvent → option Failure);
}.

(** [constructor(options)], in a session whose LLM is [llm]. *)
Definition new_TaskGroup (options : TaskGroupOptions) (llm : SessionLlm)
  : TaskGroup :=
  mkTaskGroup
    (default true (summarizeChatCtx options))
    (default false (returnExceptions options))
    JsSet.empty
    JsMap.empty
    (onTaskCompleted options)
    None
    (default [] (chatCtx options))
    llm.

(** [add(task, { id, description })] *)
Definition add (task : nat → TaskBehaviour) (id description : string)
    (this : TaskGroup) : TaskGroup :=
  mkTaskGroup
    (_summarizeChatCtx this) (_returnExceptions this) (_visitedTasks this)
    (JsMap.set id (mkFactoryInfo task id description)
       (_registeredFactories this))
    (_taskCompletedCallback this) (_currentTask this) (_chatCtx this)
    (session_llm this).

(** ** The regression tool *)

(** [buildOutOfScopeTool(activeTaskId)]: [None] is [undefined]. *)
Definition buildOutOfScopeTool (this : TaskGroup) (activeTaskId : string)
  : option OutOfScopeTool :=
  if decide (JsSet.size (_visitedTasks this) = 0) then None
  else
    let regressionTaskIds :=
      JsSet.delete activeTaskId (JsSet.copy (_visitedTasks this)) in
    if decide (JsSet.size regressionTaskIds = 0) then None
    else
      let taskRepr :=
        foldl (λ taskRepr '(id, info),
                 if JsSet.has id regressionTaskIds
                 then JsObject.set id (description info) taskRepr
                 else taskRepr)
          JsObject.empty (_registeredFactories this) in
      Some (mkTool taskRepr regressionTaskIds).

(** The test of the [for] loop in [execute]. *)
Definition invalid_task_id (registeredFactories : JsMap.t FactoryInfo)
    (visitedTasks : JsSet.t) (tid : string) : bool :=
  negb (JsMap.has tid registeredFactories) || negb (JsSet.has tid visitedTasks).

(** [execute({ task_ids })].  The closure holds the registry, the visited
    set and the task of the iteration by reference, so it takes them as
    they are when it is called and gives back the task as it leaves it. *)
Definition execute (registeredFactories : JsMap.t FactoryInfo)
    (visitedTasks : JsSet.t) (currentTask : option AgentTask)
    (task_ids : list string) : ToolResult * option AgentTask :=
  match find (invalid_task_id registeredFactories visitedTasks) task_ids with
  | Some tid =>
      (ToolThrows ("Unable to regress, invalid task id " +:+ tid), currentTask)
  | None =>
      match currentTask with
      | Some t =>
          if negb (done t)
          then (ToolReturns, Some (complete (Rejects (OutOfScopeError task_ids)) t))
          else (ToolReturns, currentTask)
      | None => (ToolReturns, currentTask)
      end
  end.

(** ** The state of a run *)

(** The group, the locals of [onEnter], and the number of task instances
    created so far. *)
Record LoopState := mkState {
  this : TaskGroup;
  taskStack : list string;
  taskResults : gmap string Entry;
  instances : nat;
}.

Definition set_taskStack (q : list string) (s : LoopState) : LoopState :=
  mkState (this s) q (taskResults s) (instances s).

Definition set_taskResults (r : gmap string Entry) (s : LoopState) : LoopState :=
  mkState (this s) (taskStack s) r (instances s).

Definition set_visitedTasks (v : JsSet.t) (s : LoopState) : LoopState :=
  let g := this s in
  mkState
    (mkTaskGroup (_summarizeChatCtx g) (_returnExceptions g) v
       (_registeredFactories g) (_taskCompletedCallback g) (_currentTask g)
       (_chatCtx g) (session_llm g))
    (taskStack s) (taskResults s) (instances s).

Definition set_currentTask (t : option AgentTask) (s : LoopState) : LoopState :=
  let g := this s in
  mkState
    (mkTaskGroup (_summarizeChatCtx g) (_returnExceptions g) (_visitedTasks g)
       (_registeredFactories g) (_taskCompletedCallback g) t
       (_chatCtx g) (session_llm g))
    (taskStack s) (taskResults s) (instances s).

Definition set_chatCtx (c : ChatContext) (s : LoopState) : LoopState :=
  let g := this s in
  mkState
    (mkTaskGroup (_summarizeChatCtx g) (_returnExceptions g) (_visitedTasks g)
       (_registeredFactories g) (_taskCompletedCallback g) (_currentTask g)
       c (session_llm g))
    (taskStack s) (taskResults s) (instances s).

Definition next_instance (s : LoopState) : LoopState :=
  mkState (this s) (taskStack s) (taskResults s) (S (instances s)).

(** [execute] called while the task of the iteration runs. *)
Definition invoke_out_of_scope (task_ids : list string) (s : LoopState)
  : ToolResult * LoopState :=
  let '(r, t) :=
    execute (_registeredFactories (this s)) (_visitedTasks (this s))
      (_currentTask (this s)) task_ids in
  (r, set_currentTask t s).

(** Modelled from the spec: a call of the installed tool by the actor, as
    llm/tool_context.ts and voice/generation.ts make it.  The arguments are
    parsed with the [parameters] of the tool, [z.array(z.enum(taskIdValues))],
    and reach [execute] only when every id is a member of the enum ("all of
    which must be members of the regression-eligible set at the time the
    capability was installed — invoking with an unknown or non-eligible id
    is rejected back to the caller of the capability", "failing with an
    explicit error naming the first invalid id encountered"). *)
Definition call_out_of_scope (tool : OutOfScopeTool) (task_ids : list string)
    (s : LoopState) : ToolResult * LoopState :=
  match find (λ tid, bool_decide (tid ∉ taskIdValues tool)) task_ids with
  | Some tid => (ArgumentsRejected tid, s)
  | None => invoke_out_of_scope task_ids s
  end.

(** ** Running one task *)

(** Modelled from the spec: what happens while [AgentTask.run] of
    voice/agent.ts is pending ("run() → (success(value) | failure(error))").
    The events happen in order; the actor can call [out_of_scope] only when
    the tool is in the task's [toolCtx], and calls the tool that is there.
    The results of the tool calls are collected as the actor sees them. *)
Fixpoint perform (evs : list ActorEvent) (s : LoopState)
  : list ToolResult * LoopState :=
  match evs with
  | [] => ([], s)
  | InvokeOutOfScope task_ids :: evs' =>
      match _currentTask (this s) ≫= out_of_scope with
      | Some tool =>
          let '(r, s') := call_out_of_scope tool task_ids s in
          let '(rs, s'') := perform evs' s' in
          (r :: rs, s'')
      | None => perform evs' s
      end
  | Complete r :: evs' =>
      perform evs'
        (set_currentTask (complete (completion_result r) <$> _currentTask (this s)) s)
  end.

(** Modelled from the spec: [await this._currentTask.run()].  The events,
    then the task's own completion if nothing has settled it; when the run
    has settled, the conversation of the task is part of the chat context
    of the group, in whose activity the task ran ("the group's running
    history built by prior completed tasks"). *)
Definition run (s : LoopState) : list ToolResult * LoopState * option RunResult :=
  match _currentTask (this s) with
  | None => ([], s, None)
  | Some t =>
      let '(calls, s') := perform (events (behaviour t)) s in
      let t' := complete (completion_result (finally (behaviour t)))
                  <$> _currentTask (this s') in
      (calls,
       set_chatCtx (history (behaviour t) (chat_ctx t)) (set_currentTask t' s'),
       t' ≫= settled)
  end.

(** ** One iteration of the [while] loop *)

(** How an iteration leaves the loop body. *)
Inductive Step :=
| Continue (s : LoopState)                  (* next iteration *)
| Return (s : LoopState) (e : JsError)      (* [this.complete(e); return] *)
| Escape (s : LoopState).                   (* a [TypeError] leaves [onEnter] *)

(** What an iteration did: the task it ran, what the tool answered to the
    actor, how [run()] settled, and whether the callback was called and
    what it threw. *)
Record IterRecord := mkRecord {
  it_taskId : string;
  it_toolCalls : list ToolResult;
  it_run : RunResult;
  it_callback : option (option Failure);
}.

(** [taskStack.unshift(taskId)] followed by the [for] loop that unshifts
    the targets from the last to the first. *)
Definition unshift_targets (targetTaskIds : list string) (taskId : string)
    (taskStack : list string) : list string :=
  foldr (λ tid stack, tid :: stack) (taskId :: taskStack) targetTaskIds.

(** The [catch (e)] clause. *)
Definition catch_clause (taskId : string) (e : Thrown) (s : LoopState) : Step :=
  match e with
  | OutOfScopeError targetTaskIds =>
      Continue (set_taskStack (unshift_targets targetTaskIds taskId (taskStack s)) s)
  | Foreign f =>
      if _returnExceptions (this s)
      then Continue
             (set_taskResults (JsObject.set taskId (ECaught f) (taskResults s)) s)
      else Return s (asError f)
  end.

(** The state in which [run()] is called: the task is created and bound
    and handed a copy of the chat context of the group, the tool is
    installed if there is one, the id is marked visited. *)
Definition enter_task (taskId : string) (factoryInfo : FactoryInfo)
    (s : LoopState) : LoopState :=
  let sharedChatCtx := _chatCtx (this s) in     (* [this._chatCtx.copy()] *)
  let s1 :=
    next_instance
      (set_currentTask
         (Some (updateChatCtx sharedChatCtx
                  (new_task (taskFactory factoryInfo (instances s))))) s) in
  let s2 :=
    match buildOutOfScopeTool (this s1) taskId with
    | Some outOfScopeTool =>
        set_currentTask (updateTools outOfScopeTool <$> _currentTask (this s1)) s1
    | None => s1
    end in
  set_visitedTasks (JsSet.add taskId (_visitedTasks (this s2))) s2.

(** The rest of the [try] block and the [catch].  The task is bound and
    its run has settled when this is reached ([run_enter_frame] below), so
    the branches for an unsettled run or an unbound task are never taken. *)
Definition leave_task (taskId : string) (clock : nat)
    (ran : list ToolResult * LoopState * option RunResult)
  : option IterRecord * Step :=
  let '(calls, s, r) := ran in
  match r with
  | None => (None, Escape s)
  | Some (Resolves res) =>
      let s' :=
        set_taskResults (JsObject.set taskId (EValue res) (taskResults s)) s in
      match _taskCompletedCallback (this s'), _currentTask (this s') with
      | Some callback, Some t =>
          match callback clock (mkEvent t taskId res) with
          | None =>
              (Some (mkRecord taskId calls (Resolves res) (Some None)), Continue s')
          | Some f =>
              (Some (mkRecord taskId calls (Resolves res) (Some (Some f))),
               catch_clause taskId (Foreign f) s')
          end
      | _, _ =>
          (Some (mkRecord taskId calls (Resolves res) None), Continue s')
      end
  | Some (Rejects e) =>
      (Some (mkRecord taskId calls (Rejects e) None), catch_clause taskId e s)
  end.

(** The loop body, after [taskId] has been shifted off [taskStack]. *)
Definition iteration (taskId : string) (s : LoopState)
  : option IterRecord * Step :=
  match JsMap.get taskId (_registeredFactories (this s)) with
  | None => (None, Escape s)     (* [factoryInfo.taskFactory] of [undefined] *)
  | Some factoryInfo =>
      leave_task taskId (instances s) (run (enter_task taskId factoryInfo s))
  end.

(** ** The loop and [onEnter] *)

Inductive LoopEnd :=
| Drained                     (* the queue is empty *)
| Aborted (e : JsError)       (* [this.complete(e); return] *)
| Escaped                     (* an exception left [onEnter] *)
| OutOfFuel.                  (* more iterations would follow *)

(** The [while] loop, for at most [fuel] iterations. *)
Fixpoint loop (fuel : nat) (s : LoopState)
  : list IterRecord * LoopState * LoopEnd :=
  match taskStack s with
  | [] => ([], s, Drained)
  | taskId :: rest =>
      match fuel with
      | 0 => ([], s, OutOfFuel)
      | S fuel' =>
          let '(rec, step) := iteration taskId (set_taskStack rest s) in
          let trace := option_list rec in
          match step with
          | Continue s' =>
              let '(tr, sf, e) := loop fuel' s' in (trace ++ tr, sf, e)
          | Return s' e => (trace, s', Aborted e)
          | Escape s' => (trace, s', Escaped)
          end
      end
  end.

(** How the group itself completes. *)
Inductive GroupOutcome :=
| Resolved (taskResults : gmap string Entry)   (* [complete({ taskResults })] *)
| Rejected (e : JsError).                      (* [complete(error)] *)

(** The second [try] block.  The filtered copy of the context is what the
    summarizer of the session is applied to. *)
Definition finalize (s : LoopState) : LoopState * GroupOutcome :=
  if _summarizeChatCtx (this s) then
    match session_llm (this s) with
    | StandardLLM summarize =>
        match summarize (_chatCtx (this s)) with
        | inl summarizedChatCtx =>
            (set_chatCtx summarizedChatCtx s, Resolved (taskResults s))
        | inr repr =>
            (s, Rejected (new_Error ("failed to summarize the chat_ctx: " +:+ repr)))
        end
    | _ =>
        (s, Rejected (new_Error
               ("failed to summarize the chat_ctx: " +:+
                "Error: summarizeChatCtx requires a standard LLM on the session")))
    end
  else (s, Resolved (taskResults s)).

(** The state at the top of the loop. *)
Definition init_state (g : TaskGroup) : LoopState :=
  mkState g (JsMap.keys (_registeredFactories g)) JsObject.empty 0.

(** [onEnter()]: [None] when [fuel] iterations were not enough or an
    exception escaped, otherwise what the group completed with. *)
Definition onEnter (fuel : nat) (g : TaskGroup)
  : list IterRecord * LoopState * option GroupOutcome :=
  let '(trace, s, e) := loop fuel (init_state g) in
  match e with
  | Drained => let '(s', o) := finalize s in (trace, s', Some o)
  | Aborted err => (trace, s, Some (Rejected err))
  | Escaped | OutOfFuel => (trace, s, None)
  end.

(** [add] called once per registration, in order. *)
Definition add_all (regs : list ((nat → TaskBehaviour) * string * string))
    (g : TaskGroup) : TaskGroup :=
  foldl (λ g '(task, id, description), add task id description g) g regs.

(** The state an iteration step ends in. *)
Definition step_state (st : Step) : LoopState :=
  match st with Continue s | Return s _ | Escape s => s end.

(** ** Reading a trace *)

(** The fields of the group that a run only reads. *)
Definition config (s : LoopState) :=
  (_summarizeChatCtx (this s), _returnExceptions (this s),
   _registeredFactories (this s), _taskCompletedCallback (this s),
   session_llm (this s)).

(** The task of the iteration was interrupted by a regression. *)
Definition is_regression (r : IterRecord) : bool :=
  match it_run r with Rejects (OutOfScopeError _) => true | _ => false end.

(** The failure the [catch] clause received, other than a regression:
    from the task, or from the callback after the task resolved. *)
Definition failure_of (r : IterRecord) : option Failure :=
  match it_run r, it_callback r with
  | Rejects (Foreign f), _ => Some f
  | Resolves _, Some (Some f) => Some f
  | _, _ => None
  end.

(** The queue after an iteration that left this record. *)
Definition stack_after (r : IterRecord) (stack : list string) : list string :=
  match it_run r with
  | Rejects (OutOfScopeError targetTaskIds) =>
      targetTaskIds ++ it_taskId r :: stack
  | _ => stack
  end.

(** The queue after the iterations that left a trace, from the queue
    before them: each iteration shifts the first id off and leaves what
    [stack_after] gives. *)
Definition stack_after_trace (tr : list IterRecord) (stack : list string)
  : list string :=
  foldl (λ stack r, stack_after r (tail stack)) stack tr.

(** [taskResults] after an iteration that left this record. *)
Definition results_after (returnExceptions : bool) (r : IterRecord)
    (m : gmap string Entry) : gmap string Entry :=
  let m' :=
    match it_run r with
    | Resolves v => JsObject.set (it_taskId r) (EValue v) m
    | Rejects _ => m
    end in
  match failure_of r with
  | Some f =>
      if returnExceptions then JsObject.set (it_taskId r) (ECaught f) m' else m'
  | None => m'
  end.

(** The error the group completes with after this record, if it does. *)
Definition abort_of (returnExceptions : bool) (r : IterRecord) : option JsError :=
  match failure_of r with
  | Some f => if returnExceptions then None else Some (asError f)
  | None => None
  end.

(** The entry an iteration that was not interrupted leaves for its task:
    the result, or the failure that was caught. *)
Definition entry_of (r : IterRecord) : option Entry :=
  match failure_of r with
  | Some f => Some (ECaught f)
  | None =>
      match it_run r with
      | Resolves v => Some (EValue v)
      | Rejects _ => None
      end
  end.

(** The callback calls of a trace, as [(taskId, result)]. *)
Definition callback_calls (trace : list IterRecord) : list (string * JsValue) :=
  omap (λ r, match it_run r, it_callback r with
             | Resolves v, Some _ => Some (it_taskId r, v)
             | _, _ => None
             end) trace.

(** ** Predicates on states and runs *)

(** The results after a trace, from the results before it. *)
Definition results_after_trace (returnExceptions : bool)
    (tr : list IterRecord) (m : gmap string Entry) : gmap string Entry :=
  foldl (λ m r, results_after returnExceptions r m) m tr.

(** The cases of a run of the loop. *)
Inductive LoopCase (fuel : nat) (s : LoopState)
    (tr : list IterRecord) (sf : LoopState) (e : LoopEnd) : Prop :=
| CaseDrained :
    taskStack s = [] → tr = [] → sf = s → e = Drained → LoopCase fuel s tr sf e
| CaseOutOfFuel :
    fuel = 0 → taskStack s ≠ [] → tr = [] → sf = s → e = OutOfFuel →
    LoopCase fuel s tr sf e
| CaseEscape fuel' taskId rest :
    fuel = S fuel' → taskStack s = taskId :: rest →
    JsMap.get taskId (_registeredFactories (this s)) = None →
    tr = [] → sf = set_taskStack rest s → e = Escaped → LoopCase fuel s tr sf e
| CaseAbort fuel' taskId rest rec s' err :
    fuel = S fuel' → taskStack s = taskId :: rest →
    iteration taskId (set_taskStack rest s) = (Some rec, Return s' err) →
    abort_of (_returnExceptions (this s)) rec = Some err →
    tr = [rec] → sf = s' → e = Aborted err → LoopCase fuel s tr sf e
| CaseContinue fuel' taskId rest rec s' tr' :
    fuel = S fuel' → taskStack s = taskId :: rest →
    iteration taskId (set_taskStack rest s) = (Some rec, Continue s') →
    abort_of (_returnExceptions (this s)) rec = None →
    tr = rec :: tr' → loop fuel' s' = (tr', sf, e) → LoopCase fuel s tr sf e.

(** The ways the second [try] block throws: [session.llm] is not a standard
    [LLM], or [_summarize] throws something whose [String] is [repr]. *)
Inductive SummarizationFails (g : TaskGroup) : string → Prop :=
| NoStandardLlm :
    (∀ summarize, session_llm g ≠ StandardLLM summarize) →
    SummarizationFails g
      "Error: summarizeChatCtx requires a standard LLM on the session"
| SummarizeThrows summarize repr :
    session_llm g = StandardLLM summarize →
    summarize (_chatCtx g) = inr repr →
    SummarizationFails g repr.

(** While no task regresses, the queue has no duplicate and no queued task
    has an entry yet. *)
Definition fresh_queue (s : LoopState) : Prop :=
  NoDup (taskStack s) ∧ ∀ k, k ∈ taskStack s → taskResults s !! k = None.

(** The targets of a regression signal stored in the bound task passed the
    check of [execute]. *)
Definition signal_checked (s : LoopState) : Prop :=
  ∀ t targets,
    _currentTask (this s) = Some t →
    settled t = Some (Rejects (OutOfScopeError targets)) →
    Forall (λ k, k ∈ JsMap.keys (_registeredFactories (this s))
                 ∧ k ∈ _visitedTasks (this s)) targets.

(** Every queued id is registered. *)
Definition registered_queue (s : LoopState) : Prop :=
  ∀ k, k ∈ taskStack s → k ∈ JsMap.keys (_registeredFactories (this s)).

(** The second [try] block does not throw: summarization is off, or the
    session has a standard LLM whose summarizer returns. *)
Definition finalization_succeeds (g : TaskGroup) : Prop :=
  _summarizeChatCtx g = false
  ∨ ∃ summarize summary,
      session_llm g = StandardLLM summarize ∧ summarize (_chatCtx g) = inl summary.

(** ** Groups used as examples *)

Module Fixtures.
(** A conversation that adds nothing to the chat context, and one that
    adds a turn. *)
Definition silent : ChatContext → ChatContext := λ c, c.
Definition says (turn : string) : ChatContext → ChatContext := λ c, c ++ [turn].

(** A task that completes with [v] at once, as the tasks of the tests. *)
Definition succeeds (v : JsValue) : nat → TaskBehaviour :=
  λ _, mkBehaviour [] (inl v) silent.

(** A task that completes with [new Error(message)]. *)
Definition fails (message : string) : nat → TaskBehaviour :=
  λ _, mkBehaviour [] (inr (new_Error message)) silent.

(** A task whose actor asks once, on instance [n], to regress to
    [targets], and that completes with [v] otherwise. *)
Definition regresses_at (n : nat) (targets : list string) (v : JsValue)
  : nat → TaskBehaviour :=
  λ k, if decide (k = n)
       then mkBehaviour [InvokeOutOfScope targets] (inl v) silent
       else mkBehaviour [] (inl v) silent.

(** A task whose actor asks on every run to regress to [targets]. *)
Definition always_regresses (targets : list string) (v : JsValue)
  : nat → TaskBehaviour :=
  λ _, mkBehaviour [InvokeOutOfScope targets] (inl v) silent.

(** A task that succeeds with [v] on instance [n] and fails on the others. *)
Definition succeeds_only_at (n : nat) (v : JsValue) (message : string)
  : nat → TaskBehaviour :=
  λ k, if decide (k = n) then mkBehaviour [] (inl v) silent
       else mkBehaviour [] (inr (new_Error message)) silent.

(** [{ summarizeChatCtx: false }] and variants. *)
Definition plain : TaskGroupOptions := mkOptions (Some false) None None None.
Definition collecting : TaskGroupOptions :=
  mkOptions (Some false) (Some true) None None.

(** A callback that throws [new Error("callback-failure")] for [tid]. *)
Definition throws_for (tid : string) : nat → TaskCompletedEvent → option Failure :=
  λ _ ev, if decide (taskId ev = tid)
          then Some (FailError (new_Error "callback-failure")) else None.

(** The group of the first test: [a], [b], [c]. *)
Definition abc : TaskGroup :=
  add (succeeds (JNum 3)) "c" "C"
    (add (succeeds (JNum 2)) "b" "B"
       (add (succeeds (JNum 1)) "a" "A" (new_TaskGroup plain NoLlm))).

(** [a], then [b] whose actor names [b] itself on its first run. *)
Definition self_regression : TaskGroup :=
  add (regresses_at 1 ["b"] (JNum 2)) "b" "B"
    (add (succeeds (JNum 1)) "a" "A" (new_TaskGroup plain NoLlm)).

(** The state in which the first run of [b] is pending. *)
Definition b_running : LoopState :=
  enter_task "b" (mkFactoryInfo (regresses_at 1 ["b"] (JNum 2)) "b" "B")
    (set_taskStack [] (loop 1 (init_state self_regression)).1.2).

(** A state whose bound task has completed with [2]. *)
Definition b_done : LoopState :=
  set_currentTask (complete (Resolves (JNum 2)) <$> _currentTask (this b_running))
    b_running.

(** [a] and [b] succeed, the callback throws for [a]; fail-fast and
    collecting. *)
Definition callback_throws (collect : bool) : TaskGroup :=
  add (succeeds (JNum 2)) "b" "B"
    (add (succeeds (JNum 1)) "a" "A"
       (new_TaskGroup
          (mkOptions (Some false) (Some collect) None (Some (throws_for "a")))
          NoLlm)).

(** Fail-fast; [a] succeeds the first time and fails when it is run
    again, [b] regresses to [a] once. *)
Definition rerun_fails : TaskGroup :=
  add (regresses_at 1 ["a"] (JNum 2)) "b" "B"
    (add (succeeds_only_at 0 (JNum 1) "boom") "a" "A"
       (new_TaskGroup plain NoLlm)).

(** The second task fails; fail-fast and collecting, as in the tests. *)
Definition second_fails (collect : bool) : TaskGroup :=
  add (succeeds (JStr "later")) "last" "runs after the failure"
    (add (fails "task-failure") "bad" "Fails"
       (add (succeeds (JStr "ok")) "good" "Succeeds"
          (new_TaskGroup (mkOptions (Some false) (Some collect) None None) NoLlm))).

(** The regression test: [email_task] regresses to [name_task] once. *)
Definition name_email : TaskGroup :=
  add (regresses_at 1 ["name_task"] (JStr "bob@test.com")) "email_task"
      "Collects the user email"
    (add (λ k, mkBehaviour []
                 (inl (JStr (if decide (k = 0) then "Alice" else "Bob"))) silent)
         "name_task" "Collects the user name"
       (new_TaskGroup plain NoLlm)).

(** Collecting; [b] succeeds on its first run, is interrupted on its second
    and fails on its third, and [c] regresses to [b] once. *)
Definition last_run_fails : TaskGroup :=
  add (regresses_at 2 ["b"] (JNum 3)) "c" "C"
    (add (λ k, if decide (k = 1) then mkBehaviour [] (inl (JNum 2)) silent
               else if decide (k = 3)
                    then mkBehaviour [InvokeOutOfScope ["a"]] (inl (JNum 2)) silent
                    else mkBehaviour [] (inr (new_Error "boom")) silent)
         "b" "B"
       (add (succeeds (JNum 1)) "a" "A" (new_TaskGroup collecting NoLlm))).

(** Collecting; [a] fails, [b] regresses to [a] on every run, [c] is queued
    behind them. *)
Definition regression_loop : TaskGroup :=
  add (succeeds (JNum 3)) "c" "C"
    (add (always_regresses ["a"] (JNum 2)) "b" "B"
       (add (fails "boom") "a" "A" (new_TaskGroup collecting NoLlm))).

(** The tasks of [abc] in a group with the default options, in a session
    without an LLM. *)
Definition abc_default : TaskGroup :=
  add (succeeds (JNum 3)) "c" "C"
    (add (succeeds (JNum 2)) "b" "B"
       (add (succeeds (JNum 1)) "a" "A"
          (new_TaskGroup (mkOptions None None None None) NoLlm))).

(** A task registered under the id [__proto__], after [a]. *)
Definition proto_task : TaskGroup :=
  add (succeeds (JNum 2)) "__proto__" "P"
    (add (succeeds (JNum 1)) "a" "A" (new_TaskGroup plain NoLlm)).
End Fixtures.

(** ** The fake LLM of voice/testing/fake_llm.ts *)

(** A string is the sequence of its code units; [Args] is the type of the
    [args] of a tool call and [stringify] stands for [JSON.stringify] on
    it.  The delays of [FakeLLMStream.run] ([ttft], [duration]) are not
    part of the embedding: it gives what the stream puts on its queue. *)
Module FakeLLM.

Record FakeLLMResponse (Args : Type) := mkResponse {
  input : string;
  type : option string;
  content : option string;
  ttft : option Z;
  duration : option Z;
  toolCalls : option (list (string * Args));   (* [{ name, args }] *)
}.
Arguments mkResponse {Args}.
Arguments input {Args}.
Arguments type {Args}.
Arguments content {Args}.
Arguments ttft {Args}.
Arguments duration {Args}.
Arguments toolCalls {Args}.

(** [{ type: 'llm', ttft: 0, duration: 0, ...response }] *)
Definition with_defaults {Args} (response : FakeLLMResponse Args)
  : FakeLLMResponse Args :=
  mkResponse (input response)
    (Some (default "llm" (type response)))
    (content response)
    (Some (default 0%Z (ttft response)))
    (Some (default 0%Z (duration response)))
    (toolCalls response).

(** [constructor(responses)]: the [responseMap] it builds. *)
Definition new_FakeLLM {Args} (responses : list (FakeLLMResponse Args))
  : JsMap.t (FakeLLMResponse Args) :=
  foldl (λ responseMap response,
           JsMap.set (input response) (with_defaults response) responseMap)
    JsMap.empty responses.

(** [lookup(input)] *)
Definition lookup {Args} (responseMap : JsMap.t (FakeLLMResponse Args))
    (input : string) : option (FakeLLMResponse Args) :=
  JsMap.get input responseMap.

(** The chat items of llm/chat_context.ts, as far as [getInputText] reads
    them: [type], [role], [textContent] and [output]. *)
Inductive ChatRole := developer | system | user | assistant.

Inductive ChatItem :=
| ChatMessage (role : ChatRole) (textContent : option string)
| FunctionCallItem
| FunctionCallOutput (output : string)
| AgentHandoff.

(** [text.split(sep)] for a separator of one code unit. *)
Fixpoint split (sep : ascii) (text : string) : list string :=
  match text with
  | "" => [""]
  | String c text' =>
      if decide (c = sep) then "" :: split sep text'
      else match split sep text' with
           | line :: lines => String c line :: lines
           | [] => [String c ""]
           end
  end.

Definition newline : ascii := "010"%char.

(** The body of the [for] loop of [getInputText]: what it returns at
    [item], if it returns there. *)
Definition instructions_line (item : ChatItem) : option string :=
  match item with
  | ChatMessage system textContent =>
      let text := default "" textContent in
      let lines := split newline text in
      let tail := default "" (last lines) in
      if bool_decide (1 < length lines) && String.prefix "instructions:" tail
      then Some tail else None
  | _ => None
  end.

(** [getInputText()]: [inr] is the [Error] it throws. *)
Definition getInputText (items : list ChatItem) : string + JsError :=
  if decide (length items = 0) then inr (new_Error "No input text found")
  else
    match list_find (λ item, is_Some (instructions_line item)) items with
    | Some (_, item) => inl (default "" (instructions_line item))
    | None =>
        match last items with
        | Some (ChatMessage user textContent) => inl (default "" textContent)
        | Some (FunctionCallOutput output) => inl output
        | _ => inr (new_Error "No input text found")
        end
    end.

(** [FunctionCall.create({ callId, name, args })], with the fields given. *)
Record FunctionCall := mkFunctionCall {
  callId : string;
  name : string;
  args : string;
}.

(** A chunk put on the queue: [{ id, delta: { role, content, toolCalls } }]. *)
Record ChatChunk := mkChunk {
  chunk_id : string;
  delta_role : ChatRole;
  delta_content : option string;
  delta_toolCalls : option (list FunctionCall);
}.

(** The [for] loop over [content], from index [i], for at most [fuel]
    chunks. *)
Fixpoint put_content (fuel i : nat) (content : string) : list ChatChunk :=
  match fuel with
  | 0 => []
  | S fuel' =>
      if bool_decide (i < String.length content)
      then mkChunk "fake" assistant (Some (String.substring i 3 content)) None
             :: put_content fuel' (i + 3) content
      else []
  end.

(** [decision.toolCalls.map((tc, index) => FunctionCall.create(...))] *)
Definition create_calls {Args} (stringify : Args → string)
    (toolCalls : list (string * Args)) : list FunctionCall :=
  imap (λ index tc,
          mkFunctionCall ("fake_call_" +:+ pretty index) tc.1 (stringify tc.2))
    toolCalls.

(** What [run()] puts on the queue for a decision. *)
Definition put_decision {Args} (stringify : Args → string)
    (decision : FakeLLMResponse Args) : list ChatChunk :=
  let content := default "" (content decision) in
  put_content (String.length content) 0 content ++
  match toolCalls decision with
  | Some (tc :: tcs) =>
      [mkChunk "fake" assistant None (Some (create_calls stringify (tc :: tcs)))]
  | _ => []
  end.

(** [FakeLLMStream.run()] on the items of its chat context: the chunks put
    on the queue, or the [Error] thrown. *)
Definition run {Args} (stringify : Args → string)
    (fake : JsMap.t (FakeLLMResponse Args)) (items : list ChatItem)
  : list ChatChunk + JsError :=
  match getInputText items with
  | inr e => inr e
  | inl input =>
      match lookup fake input with
      | None => inl []
      | Some decision => inl (put_decision stringify decision)
      end
  end.

(** What a consumer of the stream reassembles: the text and the calls. *)
Definition stream_text (chunks : list ChatChunk) : string :=
  foldr (λ chunk text, default "" (delta_content chunk) +:+ text) "" chunks.

Definition stream_calls (chunks : list ChatChunk) : list FunctionCall :=
  chunks ≫= λ chunk, default [] (delta_toolCalls chunk).

End FakeLLM.

(** ** More groups used as examples *)

Module MoreFixtures.
(** Default summarization, collecting, in a session without a standard
    LLM; the second task fails. *)
Definition collecting_no_llm : TaskGroup :=
  add (Fixtures.fails "task-failure") "bad" "Fails"
    (add (Fixtures.succeeds (JStr "ok")) "good" "Succeeds"
       (new_TaskGroup (mkOptions None (Some true) None None) RealtimeModel)).

(** Three tasks; the third regresses to the first two, once. *)
Definition regress_to_two : TaskGroup :=
  add (Fixtures.succeeds (JNum 4)) "d" "D"
    (add (Fixtures.regresses_at 2 ["b"; "a"] (JNum 3)) "c" "C"
       (add (Fixtures.succeeds (JNum 2)) "b" "B"
          (add (Fixtures.succeeds (JNum 1)) "a" "A"
             (new_TaskGroup Fixtures.plain NoLlm)))).

(** A session whose LLM summarizes any context to one item. *)
Definition summarizing_llm : SessionLlm :=
  StandardLLM (λ _, inl ["[history summary]"]).

(** The group of the summarization test: each task adds the answer of the
    user to the chat context. *)
Definition summarized : TaskGroup :=
  add (λ _, mkBehaviour [] (inl (JStr "pizza")) (Fixtures.says "user: I love pizza."))
      "food" "Collects favorite food"
    (add (λ _, mkBehaviour [] (inl (JStr "Blue"))
                 (Fixtures.says "user: Blue is my favorite color."))
         "color" "Collects favorite color"
       (new_TaskGroup (mkOptions (Some true) None None None) summarizing_llm)).
End MoreFixtures.

(** * Properties *)

(** ** Containers *)

Section JsMapFacts.
Context {V : Type}.
Implicit Types (m : list (string * V)) (k : string) (v : V).

Lemma JsMap_get_set_eq k v m : JsMap.get k (JsMap.set k v m) = Some v.
Proof.
  induction m as [|[k' v'] m IH]; simpl.
  - by case_decide.
  - destruct (decide (k = k')) as [->|Hne]; simpl; by case_decide.
Qed.

Lemma JsMap_get_set_ne k k' v m :
  k' ≠ k → JsMap.get k' (JsMap.set k v m) = JsMap.get k' m.
Proof.
  intros Hne. induction m as [|[k0 v0] m IH]; simpl.
  - by case_decide.
  - destruct (decide (k = k0)) as [->|Hk]; simpl;
      destruct (decide (k' = k0)); simplify_eq; done.
Qed.

Lemma JsMap_get_Some_keys k m :
  is_Some (JsMap.get k m) ↔ k ∈ JsMap.keys m.
Proof.
  unfold JsMap.keys. induction m as [|[k' v'] m IH]; simpl.
  - split; [intros [? ?]; done | intros ?%elem_of_nil; done].
  - destruct (decide (k = k')) as [->|Hne].
    + split; [intros _; left | eauto].
    + rewrite IH. split; [by right | by intros [?|?]%elem_of_cons].
Qed.

Lemma JsMap_has_keys k m : JsMap.has k m = true ↔ k ∈ JsMap.keys m.
Proof.
  rewrite <- JsMap_get_Some_keys. unfold JsMap.has.
  destruct (JsMap.get k m); split; try done; intros [? ?]; done.
Qed.

Lemma JsMap_keys_set k v m :
  JsMap.keys (JsMap.set k v m) =
  if decide (k ∈ JsMap.keys m) then JsMap.keys m else JsMap.keys m ++ [k].
Proof.
  unfold JsMap.keys. induction m as [|[k' v'] m IH].
  - destruct (decide (k ∈ ([] : list (string * V)).*1)) as [Hin|_]; [|done].
    by apply elem_of_nil in Hin.
  - cbn [JsMap.set]. destruct (decide (k = k')) as [->|Hne].
    + destruct (decide (k' ∈ ((k', v') :: m).*1)) as [_|Hnin]; [done|].
      exfalso. apply Hnin. left.
    + rewrite !fmap_cons, IH. cbn [fst].
      destruct (decide (k ∈ m.*1)) as [Hin|Hnin];
        destruct (decide (k ∈ k' :: m.*1)) as [Hin'|Hnin']; try done.
      * exfalso. apply Hnin'. by right.
      * apply elem_of_cons in Hin' as [?|?]; done.
Qed.

Lemma JsMap_keys_set_NoDup k v m :
  NoDup (JsMap.keys m) → NoDup (JsMap.keys (JsMap.set k v m)).
Proof.
  intros Hnd. rewrite JsMap_keys_set. case_decide; [done |].
  apply NoDup_app. split_and!; [done | | apply NoDup_singleton].
  intros x Hx ->%list_elem_of_singleton. done.
Qed.
End JsMapFacts.

Section JsObjectFacts.
Context {V : Type}.
Implicit Types (obj : gmap string V) (k : string) (v : V).

Lemma JsObject_lookup_set_eq k v obj :
  k ≠ "__proto__" → JsObject.set k v obj !! k = Some v.
Proof. intros Hk. unfold JsObject.set. by rewrite decide_False, lookup_insert_eq. Qed.

Lemma JsObject_lookup_set_ne k k' v obj :
  k ≠ k' → JsObject.set k v obj !! k' = obj !! k'.
Proof.
  intros Hne. unfold JsObject.set. case_decide; [done|].
  by rewrite lookup_insert_ne.
Qed.

Lemma JsObject_lookup_set_proto k v obj :
  JsObject.set k v obj !! "__proto__" = obj !! "__proto__".
Proof.
  unfold JsObject.set. case_decide as Hk; [done|]. by rewrite lookup_insert_ne.
Qed.
End JsObjectFacts.

Lemma JsSet_has_true x (s : list string) : JsSet.has x s = true ↔ x ∈ s.
Proof. unfold JsSet.has. apply bool_decide_eq_true. Qed.

Lemma JsSet_elem_of_add x y (s : list string) :
  x ∈ JsSet.add y s ↔ x = y ∨ x ∈ s.
Proof.
  unfold JsSet.add. destruct (JsSet.has y s) eqn:Hy.
  - apply JsSet_has_true in Hy. split; [by right | by intros [->|?]].
  - rewrite elem_of_app, list_elem_of_singleton. tauto.
Qed.

Lemma JsSet_add_subseteq y (s : list string) : s ⊆ JsSet.add y s.
Proof. intros x Hx. apply JsSet_elem_of_add. by right. Qed.

Lemma JsSet_elem_of_delete x y (s : list string) :
  x ∈ JsSet.delete y s ↔ x ∈ s ∧ x ≠ y.
Proof. unfold JsSet.delete. rewrite list_elem_of_filter. tauto. Qed.

Lemma unshift_targets_app targetTaskIds taskId stack :
  unshift_targets targetTaskIds taskId stack = targetTaskIds ++ taskId :: stack.
Proof.
  unfold unshift_targets.
  induction targetTaskIds as [|x l IH]; simpl; [done | by rewrite IH].
Qed.

(** ** What an iteration touches *)

Lemma set_currentTask_twice t t' s :
  set_currentTask t (set_currentTask t' s) = set_currentTask t s.
Proof. done. Qed.

Lemma set_currentTask_same s : set_currentTask (_currentTask (this s)) s = s.
Proof. by destruct s as [[] ? ? ?]. Qed.

Lemma execute_keeps_task reg visited t task_ids :
  is_Some t → is_Some (execute reg visited t task_ids).2.
Proof.
  intros [t0 ->]. unfold execute.
  destruct (find _ task_ids); [by eexists |].
  destruct (negb (done t0)); by eexists.
Qed.

(** The events of a run change the bound task and nothing else. *)
Lemma perform_frame evs s :
  (perform evs s).2 = set_currentTask (_currentTask (this (perform evs s).2)) s
  ∧ (is_Some (_currentTask (this s)) →
     is_Some (_currentTask (this (perform evs s).2))).
Proof.
  revert s. induction evs as [|[task_ids|r] evs IH]; intros s; simpl.
  - by rewrite set_currentTask_same.
  - destruct (_currentTask (this s) ≫= out_of_scope) as [tool|]; [|apply IH].
    unfold call_out_of_scope.
    destruct (find _ task_ids).
    { specialize (IH s). by destruct (perform evs s) as [rs s'']. }
    unfold invoke_out_of_scope.
    pose proof (execute_keeps_task (_registeredFactories (this s))
                  (_visitedTasks (this s)) (_currentTask (this s)) task_ids) as Hk.
    destruct (execute _ _ _ task_ids) as [res t].
    specialize (IH (set_currentTask t s)).
    destruct (perform evs (set_currentTask t s)) as [rs s''].
    simpl in *. destruct IH as [IH1 IH2]. split.
    + rewrite IH1 at 1. apply set_currentTask_twice.
    + intros Hs. apply IH2. destruct s as [[] ? ? ?]. simpl in *. by apply Hk.
  - specialize (IH (set_currentTask
                      (complete (completion_result r) <$> _currentTask (this s)) s)).
    destruct IH as [IH1 IH2]. split.
    + rewrite IH1 at 1. apply set_currentTask_twice.
    + intros Hs. apply IH2. destruct s as [[] ? ? ?]. simpl in *.
      by apply fmap_is_Some.
Qed.

Lemma complete_settled r t : is_Some (settled (complete r t)).
Proof.
  unfold complete, done. destruct (settled t) eqn:E; simpl; [by rewrite E | done].
Qed.

(** The state after [run()] differs from the state before the iteration in
    the bound task, the visited set and the instance count only; the task
    is bound and its run has settled. *)
Lemma run_enter_frame taskId factoryInfo s calls s' r :
  run (enter_task taskId factoryInfo s) = (calls, s', r) →
  taskStack s' = taskStack s ∧ taskResults s' = taskResults s ∧
  config s' = config s ∧
  _visitedTasks (this s') = JsSet.add taskId (_visitedTasks (this s)) ∧
  instances s' = S (instances s) ∧
  is_Some (_currentTask (this s')) ∧ is_Some r.
Proof.
  unfold run.
  set (s0 := enter_task taskId factoryInfo s).
  assert (Hs0 : taskStack s0 = taskStack s ∧ taskResults s0 = taskResults s ∧
                config s0 = config s ∧
                _visitedTasks (this s0) = JsSet.add taskId (_visitedTasks (this s)) ∧
                instances s0 = S (instances s) ∧
                is_Some (_currentTask (this s0))).
  { subst s0. unfold enter_task. destruct s as [[] ? ? ?]; simpl.
    destruct (buildOutOfScopeTool _ taskId); simpl; split_and!; done. }
  clearbody s0. destruct Hs0 as (H1 & H2 & H3 & H4 & H5 & [t Ht]). rewrite Ht.
  pose proof (perform_frame (events (behaviour t)) s0) as [Hf Hsome].
  destruct (perform (events (behaviour t)) s0) as [cs s1]. simpl in Hf, Hsome.
  intros [= <- <- <-].
  destruct Hsome as [t1 Ht1]; [by rewrite Ht |].
  rewrite Hf, Ht1. clear Hf.
  destruct s0 as [[] ? ? ?]. unfold config in *. simpl in *. simplify_eq.
  split_and!; try done. apply complete_settled.
Qed.

(** The step of an iteration, read off the record it leaves. *)
Lemma iteration_effect taskId s rec step :
  iteration taskId s = (Some rec, step) →
  it_taskId rec = taskId ∧
  taskStack (step_state step) = stack_after rec (taskStack s) ∧
  taskResults (step_state step) =
    results_after (_returnExceptions (this s)) rec (taskResults s) ∧
  step = match abort_of (_returnExceptions (this s)) rec with
         | Some e => Return (step_state step) e
         | None => Continue (step_state step)
         end ∧
  config (step_state step) = config s ∧
  _visitedTasks (this (step_state step)) = JsSet.add taskId (_visitedTasks (this s)) ∧
  instances (step_state step) = S (instances s).
Proof.
  unfold iteration.
  destruct (JsMap.get taskId _) as [factoryInfo|]; [|done].
  destruct (run (enter_task taskId factoryInfo s)) as [[calls s1] r] eqn:Hrun.
  apply run_enter_frame in Hrun as (Hq & Hres & Hcfg & Hvis & Hinst & [t Ht] & [rr ->]).
  assert (Hre : _returnExceptions (this s1) = _returnExceptions (this s))
    by (unfold config in Hcfg; congruence).
  unfold leave_task.
  destruct rr as [v|[targets|f]].
  - destruct s1 as [g1 q1 m1 n1]. simpl in *. subst q1 m1 n1.
    rewrite Ht.
    destruct (_taskCompletedCallback g1) as [callback|]; simpl.
    + destruct (callback (instances s) _) as [f|]; intros [= <- <-];
        unfold results_after, abort_of, failure_of, stack_after, catch_clause;
        simpl; rewrite ?Hre;
        destruct (_returnExceptions (this s)); simpl; split_and!; done.
    + intros [= <- <-].
      unfold results_after, abort_of, failure_of, stack_after; simpl.
      split_and!; done.
  - intros [= <- <-].
    unfold results_after, abort_of, failure_of, stack_after, catch_clause; simpl.
    rewrite unshift_targets_app, Hq. split_and!; done.
  - intros [= <- <-].
    unfold results_after, abort_of, failure_of, stack_after, catch_clause; simpl.
    rewrite Hre. destruct (_returnExceptions (this s)); simpl;
      rewrite ?Hres; split_and!; done.
Qed.

(** An iteration that leaves no record has run no task: the id was not
    registered. *)
Lemma iteration_no_record taskId s step :
  iteration taskId s = (None, step) →
  JsMap.get taskId (_registeredFactories (this s)) = None ∧ step = Escape s.
Proof.
  unfold iteration.
  destruct (JsMap.get taskId _) as [factoryInfo|]; [|by intros [= <-]].
  destruct (run (enter_task taskId factoryInfo s)) as [[calls s1] r] eqn:Hrun.
  apply run_enter_frame in Hrun as (_ & _ & _ & _ & _ & [t Ht] & [rr ->]).
  unfold leave_task.
  destruct rr as [v|e]; [|done]. simpl. rewrite Ht.
  destruct (_taskCompletedCallback _) as [callback|]; [|done].
  by destruct (callback _ _).
Qed.

Lemma iteration_registered taskId s :
  is_Some (JsMap.get taskId (_registeredFactories (this s))) →
  is_Some (iteration taskId s).1.
Proof.
  intros Hreg. destruct (iteration taskId s) as [[rec|] step] eqn:E; [done|].
  apply iteration_no_record in E as [E _]. rewrite E in Hreg. by destruct Hreg.
Qed.

(** ** The loop, iteration by iteration *)

Lemma loop_S fuel s taskId rest :
  taskStack s = taskId :: rest →
  loop (S fuel) s =
    let '(rec, step) := iteration taskId (set_taskStack rest s) in
    match step with
    | Continue s' =>
        let '(tr, sf, e) := loop fuel s' in (option_list rec ++ tr, sf, e)
    | Return s' e => (option_list rec, s', Aborted e)
    | Escape s' => (option_list rec, s', Escaped)
    end.
Proof. intros Hq. simpl. by rewrite Hq. Qed.

Lemma loop_empty fuel s : taskStack s = [] → loop fuel s = ([], s, Drained).
Proof. intros Hq. destruct fuel; simpl; by rewrite Hq. Qed.

Lemma loop_case fuel s tr sf e :
  loop fuel s = (tr, sf, e) → LoopCase fuel s tr sf e.
Proof.
  destruct (taskStack s) as [|taskId rest] eqn:Hq.
  { rewrite loop_empty by done. intros [= <- <- <-]. by apply CaseDrained. }
  destruct fuel as [|fuel'].
  { simpl. rewrite Hq. intros [= <- <- <-]. apply CaseOutOfFuel; by rewrite ?Hq. }
  rewrite (loop_S _ _ _ _ Hq).
  destruct (iteration taskId (set_taskStack rest s)) as [[rec|] step] eqn:Hit.
  - pose proof (iteration_effect _ _ _ _ Hit) as (_ & _ & _ & Hstep & _).
    change (_returnExceptions (this (set_taskStack rest s)))
      with (_returnExceptions (this s)) in Hstep.
    destruct (abort_of _ rec) as [err|] eqn:Hab; rewrite Hstep in Hit |- *.
    + intros [= <- <- <-]. by eapply CaseAbort.
    + destruct (loop fuel' (step_state step)) as [[tr' sf'] e'] eqn:Hl.
      intros [= <- <- <-]. by eapply CaseContinue.
  - apply iteration_no_record in Hit as [Hget ->].
    intros [= <- <- <-]. by eapply CaseEscape.
Qed.

(** What an iteration does to the state, for the iterations of a loop. *)
Lemma iteration_of_loop s taskId rest rec step :
  taskStack s = taskId :: rest →
  iteration taskId (set_taskStack rest s) = (Some rec, step) →
  it_taskId rec = taskId ∧
  taskStack (step_state step) = stack_after rec rest ∧
  taskResults (step_state step) =
    results_after (_returnExceptions (this s)) rec (taskResults s) ∧
  config (step_state step) = config s ∧
  _visitedTasks (this (step_state step)) = JsSet.add taskId (_visitedTasks (this s)) ∧
  instances (step_state step) = S (instances s).
Proof.
  intros Hq Hit. apply iteration_effect in Hit as (H1 & H2 & H3 & _ & H5 & H6 & H7).
  by split_and!.
Qed.

(** A record of the trace comes from an iteration of a state the loop went
    through.  [I done s] is any property of the records already left and
    the state reached that the iterations preserve, given that their
    records satisfy [P]. *)
Lemma loop_split (I : list IterRecord → LoopState → Prop) (P : IterRecord → Prop)
    fuel s done_ pre rec post sf e :
  (∀ done_ s0 taskId rest r s',
     I done_ s0 → P r → taskStack s0 = taskId :: rest →
     iteration taskId (set_taskStack rest s0) = (Some r, Continue s') →
     I (done_ ++ [r]) s') →
  loop fuel s = (pre ++ rec :: post, sf, e) →
  Forall P pre → I done_ s →
  ∃ fuel' s1 rest,
    I (done_ ++ pre) s1 ∧ config s1 = config s ∧ S fuel' ≤ fuel ∧
    taskStack s1 = it_taskId rec :: rest ∧
    (iteration (it_taskId rec) (set_taskStack rest s1)).1 = Some rec ∧
    loop (S fuel') s1 = (rec :: post, sf, e).
Proof.
  intros HI. revert s done_ pre.
  induction fuel as [|fuel IH]; intros s done_ pre Hloop HP HIs;
    pose proof (loop_case _ _ _ _ _ Hloop) as Hc;
    destruct Hc as [? Htr| ? ? Htr| ? ? ? ? ? ? Htr ? ?
                   | fuel' taskId rest r s' err Hf Hq Hit Hab Htr
                   | fuel' taskId rest r s' tr' Hf Hq Hit Hab Htr Hl];
    try (by destruct pre); try lia.
  - injection Hf as <-.
    destruct pre as [|p [|? ?]]; simplify_eq/=.
    pose proof (iteration_of_loop _ _ _ _ _ Hq Hit) as (<- & _).
    exists fuel, s, rest. rewrite Hit, app_nil_r. split_and!; try done; lia.
  - injection Hf as <-.
    destruct pre as [|p pre]; simplify_eq/=.
    + pose proof (iteration_of_loop _ _ _ _ _ Hq Hit) as (<- & _).
      exists fuel, s, rest. rewrite Hit, app_nil_r. split_and!; try done; lia.
    + apply Forall_cons in HP as [HPp HP].
      pose proof (iteration_of_loop _ _ _ _ _ Hq Hit) as (_ & _ & _ & Hcfg & _).
      simpl in Hcfg.
      destruct (IH s' (done_ ++ [r]) pre Hl HP)
        as (f1 & s1 & rest1 & HI1 & ? & ? & ? & ? & ?).
      { by eapply HI. }
      rewrite <- app_assoc in HI1.
      exists f1, s1, rest1. split_and!; try done; [congruence | lia].
Qed.

(** ** The registry *)

Lemma add_all_snoc regs task id description g :
  add_all (regs ++ [(task, id, description)]) g =
  add task id description (add_all regs g).
Proof. unfold add_all. by rewrite foldl_app. Qed.

Lemma add_all_app regs more g :
  add_all (regs ++ more) g = add_all more (add_all regs g).
Proof. unfold add_all. by rewrite foldl_app. Qed.

Lemma add_keys task id description g :
  JsMap.keys (_registeredFactories (add task id description g)) =
  if decide (id ∈ JsMap.keys (_registeredFactories g))
  then JsMap.keys (_registeredFactories g)
  else JsMap.keys (_registeredFactories g) ++ [id].
Proof. apply JsMap_keys_set. Qed.

Lemma add_all_keys_NoDup regs g :
  NoDup (JsMap.keys (_registeredFactories g)) →
  NoDup (JsMap.keys (_registeredFactories (add_all regs g))).
Proof.
  induction regs as [|[[task id] description] regs IH] using rev_ind; [done|].
  intros Hnd. rewrite add_all_snoc. by apply JsMap_keys_set_NoDup, IH.
Qed.

Lemma add_all_keys_elem regs g k :
  k ∈ JsMap.keys (_registeredFactories (add_all regs g)) ↔
  k ∈ JsMap.keys (_registeredFactories g) ∨ k ∈ regs.*1.*2.
Proof.
  induction regs as [|[[task id] description] regs IH] using rev_ind.
  - simpl. rewrite elem_of_nil. tauto.
  - rewrite add_all_snoc, add_keys, !fmap_app, elem_of_app. simpl.
    rewrite list_elem_of_singleton.
    destruct (decide (id ∈ JsMap.keys (_registeredFactories (add_all regs g))))
      as [Hin|Hnin].
    + rewrite IH. split; [tauto|].
      intros [?|[?| ->]]; try tauto.
    + rewrite elem_of_app, list_elem_of_singleton, IH. tauto.
Qed.

Lemma add_all_keys_prefix more g :
  JsMap.keys (_registeredFactories g) `prefix_of`
  JsMap.keys (_registeredFactories (add_all more g)).
Proof.
  induction more as [|[[task id] description] more IH] using rev_ind; [done|].
  rewrite add_all_snoc, add_keys. case_decide; [done|].
  by apply prefix_app_r.
Qed.

(** C9.  Whatever [add] calls built the group: a further [add] stores its
    factory and description under the id, replacing what was there, leaves
    the other ids alone, and appends the id to [keys()] only if it is new
    (a registered id keeps its place); [keys()] has no duplicate, holds the
    registered ids, is never reordered by later calls, and is the initial
    queue. *)
Theorem add_last_write_wins_first_position options llm regs :
  let g := add_all regs (new_TaskGroup options llm) in
  let keys (g : TaskGroup) := JsMap.keys (_registeredFactories g) in
  (∀ task id description,
     JsMap.get id (_registeredFactories (add task id description g))
       = Some (mkFactoryInfo task id description)
     ∧ (∀ id', id' ≠ id →
          JsMap.get id' (_registeredFactories (add task id description g))
          = JsMap.get id' (_registeredFactories g))
     ∧ keys (add task id description g)
       = if decide (id ∈ keys g) then keys g else keys g ++ [id])
  ∧ NoDup (keys g)
  ∧ (∀ id, id ∈ keys g ↔ id ∈ regs.*1.*2)
  ∧ (∀ more, keys g `prefix_of` keys (add_all more g))
  ∧ taskStack (init_state g) = keys g.
Proof.
  intros g keys. split_and!.
  - intros task id description. split_and!.
    + apply JsMap_get_set_eq.
    + intros id' Hne. by apply JsMap_get_set_ne.
    + apply add_keys.
  - apply add_all_keys_NoDup. constructor.
  - intros id. unfold keys, g. rewrite add_all_keys_elem. simpl.
    rewrite elem_of_nil. tauto.
  - intros more. apply add_all_keys_prefix.
  - done.
Qed.

(** ** The visited set *)

Lemma invoke_out_of_scope_visited task_ids s :
  _visitedTasks (this (invoke_out_of_scope task_ids s).2) = _visitedTasks (this s).
Proof.
  unfold invoke_out_of_scope. by destruct (execute _ _ _ task_ids).
Qed.

Lemma run_visited s : _visitedTasks (this (run s).1.2) = _visitedTasks (this s).
Proof.
  unfold run. destruct (_currentTask (this s)) as [t|]; [|done].
  pose proof (perform_frame (events (behaviour t)) s) as [Hf _].
  destruct (perform _ s) as [calls s']. simpl in *. by rewrite Hf.
Qed.

Lemma enter_task_visited taskId factoryInfo s :
  _visitedTasks (this (enter_task taskId factoryInfo s)) =
  JsSet.add taskId (_visitedTasks (this s)).
Proof.
  unfold enter_task. simpl. by destruct (buildOutOfScopeTool _ taskId).
Qed.

Lemma iteration_visited taskId s :
  _visitedTasks (this s) ⊆ _visitedTasks (this (step_state (iteration taskId s).2)).
Proof.
  destruct (iteration taskId s) as [[rec|] step] eqn:Hit.
  - apply iteration_effect in Hit as (_ & _ & _ & _ & _ & Hv & _).
    simpl. rewrite Hv. apply JsSet_add_subseteq.
  - by apply iteration_no_record in Hit as [_ ->].
Qed.

Lemma loop_visited fuel s :
  _visitedTasks (this s) ⊆ _visitedTasks (this (loop fuel s).1.2).
Proof.
  revert s. induction fuel as [|fuel IH]; intros s.
  - simpl. by destruct (taskStack s).
  - destruct (taskStack s) as [|taskId rest] eqn:Hq; [by rewrite loop_empty|].
    rewrite (loop_S _ _ _ _ Hq).
    pose proof (iteration_visited taskId (set_taskStack rest s)) as Hv.
    destruct (iteration taskId (set_taskStack rest s)) as [rec [s'|s' e|s']];
      simpl in *; try done.
    specialize (IH s'). destruct (loop fuel s') as [[tr sf] e]. simpl in *.
    by etrans.
Qed.

Lemma finalize_visited s :
  _visitedTasks (this (finalize s).1) = _visitedTasks (this s).
Proof.
  unfold finalize. destruct (_summarizeChatCtx _); [|done].
  destruct (session_llm _) as [summarize| |]; try done.
  by destruct (summarize _).
Qed.

Lemma loop_visited_exact fuel s k :
  k ∈ _visitedTasks (this (loop fuel s).1.2)
  ↔ k ∈ _visitedTasks (this s) ∨ k ∈ it_taskId <$> (loop fuel s).1.1.
Proof.
  revert s. induction fuel as [|fuel IH]; intros s;
    destruct (loop _ s) as [[tr sf] e] eqn:Hl;
    destruct (loop_case _ _ _ _ _ Hl)
      as [| |fuel' taskId rest Hf Hq Hget
            |fuel' taskId rest r s' err' Hf Hq Hit Hab
            |fuel' taskId rest r s' tr' Hf Hq Hit Hab Htr Hl'];
    clear Hl; simplify_eq; cbn [fst snd];
    rewrite ?fmap_nil, ?elem_of_nil; try tauto.
  - pose proof (iteration_of_loop _ _ _ _ _ Hq Hit) as (Hid & _ & _ & _ & Hv & _).
    cbn [step_state] in Hv. rewrite Hv, JsSet_elem_of_add.
    rewrite list_fmap_singleton, list_elem_of_singleton, Hid. tauto.
  - pose proof (iteration_of_loop _ _ _ _ _ Hq Hit) as (Hid & _ & _ & _ & Hv & _).
    cbn [step_state] in Hv. specialize (IH s'). rewrite Hl' in IH.
    cbn [fst snd] in IH. rewrite IH, Hv, JsSet_elem_of_add.
    rewrite fmap_cons, elem_of_cons, Hid. tauto.
Qed.

(** ** The regression tool *)

Lemma invalid_task_id_false reg visited tid :
  invalid_task_id reg visited tid = false ↔
  tid ∈ JsMap.keys reg ∧ tid ∈ visited.
Proof.
  unfold invalid_task_id. rewrite orb_false_iff, !negb_false_iff.
  by rewrite JsMap_has_keys, JsSet_has_true.
Qed.

Lemma invalid_task_id_true reg visited tid :
  invalid_task_id reg visited tid = true ↔
  tid ∉ JsMap.keys reg ∨ tid ∉ visited.
Proof.
  rewrite <- not_false_iff_true, invalid_task_id_false.
  split; [|tauto]. intros Hn.
  destruct (decide (tid ∈ JsMap.keys reg)); [|by left].
  destruct (decide (tid ∈ visited)); [|by right]. tauto.
Qed.

Lemma find_first {A} (p : A → bool) l x :
  find p l = Some x →
  ∃ pre post, l = pre ++ x :: post ∧ p x = true ∧ Forall (λ y, p y = false) pre.
Proof.
  induction l as [|y l IH]; simpl; [done|].
  destruct (p y) eqn:Hy.
  - intros [= ->]. by exists [], l.
  - intros (pre & post & -> & ? & ?)%IH. exists (y :: pre), post.
    split_and!; [done..|by constructor].
Qed.

Lemma find_none {A} (p : A → bool) l :
  find p l = None ↔ Forall (λ y, p y = false) l.
Proof.
  induction l as [|y l IH]; simpl; [by split|].
  destruct (p y) eqn:Hy.
  - split; [done | by intros [? ?]%Forall_cons; congruence].
  - rewrite IH. split; [by constructor | by intros [? ?]%Forall_cons].
Qed.

Lemma buildOutOfScopeTool_excludes_active g activeTaskId :
  activeTaskId ∉ from_option taskIdValues [] (buildOutOfScopeTool g activeTaskId).
Proof.
  unfold buildOutOfScopeTool. repeat case_decide; simpl;
    try apply not_elem_of_nil.
  rewrite JsSet_elem_of_delete. tauto.
Qed.

(** C10.  When every target is registered and visited and the task the
    tool is bound to is already done, [execute] returns without throwing
    and leaves the task as it is (no [OutOfScopeError] is stored in it);
    when that task is the task of the iteration, the whole state of the
    run, with queue, visited set and results, is the same after the call. *)
Theorem out_of_scope_on_done_task_is_noop s bound task_ids :
  done bound = true →
  Forall (λ tid, tid ∈ JsMap.keys (_registeredFactories (this s))
                 ∧ tid ∈ _visitedTasks (this s)) task_ids →
  execute (_registeredFactories (this s)) (_visitedTasks (this s))
    (Some bound) task_ids = (ToolReturns, Some bound)
  ∧ (_currentTask (this s) = Some bound →
     invoke_out_of_scope task_ids s = (ToolReturns, s)).
Proof.
  intros Hdone Hvalid.
  assert (execute (_registeredFactories (this s)) (_visitedTasks (this s))
            (Some bound) task_ids = (ToolReturns, Some bound)) as He.
  { unfold execute.
    assert (find (invalid_task_id (_registeredFactories (this s))
                    (_visitedTasks (this s))) task_ids = None) as ->.
    { apply find_none. eapply Forall_impl; [exact Hvalid|].
      intros tid. by rewrite invalid_task_id_false. }
    by rewrite Hdone. }
  split; [done|]. intros Ht.
  unfold invoke_out_of_scope. rewrite Ht, He, <- Ht.
  by rewrite set_currentTask_same.
Qed.

Lemma out_of_scope_on_done_task_is_noop_witness :
  invoke_out_of_scope ["a"] Fixtures.b_done = (ToolReturns, Fixtures.b_done).
Proof.
  destruct (out_of_scope_on_done_task_is_noop Fixtures.b_done
              (mkTask
                 (mkBehaviour [InvokeOutOfScope ["b"]] (inl (JNum 2)) Fixtures.silent)
                 (Some (Resolves (JNum 2)))
                 (Some (mkTool (JsObject.set "a" "A" JsObject.empty) ["a"]))
                 [])
              ["a"]) as [_ Hinvoke].
  - reflexivity.
  - constructor; [|constructor]. split; vm_compute; by left.
  - apply Hinvoke. vm_compute. reflexivity.
Defined.

(** When some target is not registered, or not in the visited set as it is
    when [execute] is called, [execute] throws a [ToolError] naming the
    first such target, the task is not completed, and the state of the run
    is the same after the call. *)
Lemma invoke_out_of_scope_invalid s task_ids :
  (∃ x, x ∈ task_ids ∧ (x ∉ JsMap.keys (_registeredFactories (this s))
                         ∨ x ∉ _visitedTasks (this s))) →
  ∃ pre tid post,
    task_ids = pre ++ tid :: post
    ∧ Forall (λ y, y ∈ JsMap.keys (_registeredFactories (this s))
                   ∧ y ∈ _visitedTasks (this s)) pre
    ∧ (tid ∉ JsMap.keys (_registeredFactories (this s)) ∨ tid ∉ _visitedTasks (this s))
    ∧ invoke_out_of_scope task_ids s
      = (ToolThrows ("Unable to regress, invalid task id " +:+ tid), s).
Proof.
  intros (x & Hx & Hinv).
  destruct (find (invalid_task_id (_registeredFactories (this s))
                    (_visitedTasks (this s))) task_ids) as [tid|] eqn:Hfind.
  - destruct (find_first _ _ _ Hfind) as (pre & post & -> & Htid & Hpre).
    exists pre, tid, post. split_and!; [done| | |].
    + eapply Forall_impl; [exact Hpre|]. intros y. by rewrite invalid_task_id_false.
    + by apply invalid_task_id_true.
    + unfold invoke_out_of_scope, execute. rewrite Hfind.
      by rewrite set_currentTask_same.
  - exfalso. rewrite find_none, Forall_forall in Hfind.
    specialize (Hfind x Hx). apply invalid_task_id_true in Hinv. congruence.
Qed.

(** The tool in the [toolCtx] of the task whose [run()] is called is the
    one [buildOutOfScopeTool] gives for the visited set as it was before
    the task was marked visited. *)
Lemma enter_task_tool taskId factoryInfo s :
  _currentTask (this (enter_task taskId factoryInfo s)) ≫= out_of_scope
  = buildOutOfScopeTool (this s) taskId.
Proof.
  unfold enter_task. cbn [next_instance set_currentTask this].
  change (buildOutOfScopeTool (mkTaskGroup _ _ _ _ _ _ _ _) taskId)
    with (buildOutOfScopeTool (this s) taskId).
  by destruct (buildOutOfScopeTool (this s) taskId).
Qed.

(** C3.  The tool a task gets is built from the visited set without the id
    of the task, before the task is marked visited, and its enum is that
    set.  A call of the tool whose list holds an id that is not eligible
    (the active id, an id not visited when the tool was built, an id that
    is not registered or not visited when the call is made) is rejected
    with an error naming such an id of the list: the first id that is not
    in the enum, or, when all are, the first that [execute] finds invalid.
    The state of the run, with the bound task, the queue and the visited
    set, is the same after the call, and the run of the task goes on with
    its next event. *)
Theorem ineligible_regression_target_rejected g activeTaskId tool s task_ids :
  buildOutOfScopeTool g activeTaskId = Some tool →
  (∃ x, x ∈ task_ids ∧
        (x = activeTaskId ∨ x ∉ _visitedTasks g
         ∨ x ∉ JsMap.keys (_registeredFactories (this s))
         ∨ x ∉ _visitedTasks (this s))) →
  (∀ taskId factoryInfo s0,
     _currentTask (this (enter_task taskId factoryInfo s0)) ≫= out_of_scope
     = buildOutOfScopeTool (this s0) taskId)
  ∧ taskIdValues tool = JsSet.delete activeTaskId (JsSet.copy (_visitedTasks g))
  ∧ ∃ pre tid post r,
      task_ids = pre ++ tid :: post
      ∧ (((tid = activeTaskId ∨ tid ∉ _visitedTasks g)
          ∧ Forall (λ y, y ∈ taskIdValues tool) pre
          ∧ r = ArgumentsRejected tid)
         ∨ ((tid ∉ JsMap.keys (_registeredFactories (this s))
             ∨ tid ∉ _visitedTasks (this s))
            ∧ Forall (λ y, y ∈ taskIdValues tool) task_ids
            ∧ r = ToolThrows ("Unable to regress, invalid task id " +:+ tid)))
      ∧ call_out_of_scope tool task_ids s = (r, s)
      ∧ ∀ evs,
          _currentTask (this s) ≫= out_of_scope = Some tool →
          perform (InvokeOutOfScope task_ids :: evs) s
          = (r :: (perform evs s).1, (perform evs s).2).
Proof.
  intros Hbuild (x & Hx & Hinv).
  assert (taskIdValues tool = JsSet.delete activeTaskId (JsSet.copy (_visitedTasks g)))
    as Henum.
  { unfold buildOutOfScopeTool in Hbuild. repeat case_decide; by simplify_eq. }
  assert (∀ y, y ∈ taskIdValues tool ↔ y ∈ _visitedTasks g ∧ y ≠ activeTaskId)
    as Hin by (intros y; rewrite Henum; apply JsSet_elem_of_delete).
  split; [apply enter_task_tool|]. split; [done|].
  assert (∃ pre tid post r,
            task_ids = pre ++ tid :: post
            ∧ (((tid = activeTaskId ∨ tid ∉ _visitedTasks g)
                ∧ Forall (λ y, y ∈ taskIdValues tool) pre
                ∧ r = ArgumentsRejected tid)
               ∨ ((tid ∉ JsMap.keys (_registeredFactories (this s))
                   ∨ tid ∉ _visitedTasks (this s))
                  ∧ Forall (λ y, y ∈ taskIdValues tool) task_ids
                  ∧ r = ToolThrows ("Unable to regress, invalid task id " +:+ tid)))
            ∧ call_out_of_scope tool task_ids s = (r, s))
    as (pre & tid & post & r & Hsplit & Hcase & Hcall).
  { unfold call_out_of_scope.
    destruct (find (λ tid, bool_decide (tid ∉ taskIdValues tool)) task_ids)
      as [tid|] eqn:Hfind.
    - destruct (find_first _ _ _ Hfind) as (pre & post & -> & Htid & Hpre).
      apply bool_decide_eq_true in Htid.
      exists pre, tid, post, (ArgumentsRejected tid). split_and!; [done| |done].
      left. split_and!; [|eapply Forall_impl; [exact Hpre|]|done].
      + rewrite Hin in Htid.
        destruct (decide (tid = activeTaskId)); [by left|]. right. tauto.
      + intros y Hy. apply bool_decide_eq_false in Hy. by apply dec_stable.
    - apply find_none in Hfind.
      assert (Forall (λ y, y ∈ taskIdValues tool) task_ids) as Hall.
      { eapply Forall_impl; [exact Hfind|]. intros y Hy.
        apply bool_decide_eq_false in Hy. by apply dec_stable. }
      destruct (invoke_out_of_scope_invalid s task_ids)
        as (pre & tid & post & Hsplit & _ & Htid & Hinvoke).
      { exists x. split; [done|].
        rewrite Forall_forall in Hall. apply Hall, Hin in Hx as [Hv Hne].
        destruct Hinv as [?|[?|[?|?]]]; try done; tauto. }
      exists pre, tid, post,
        (ToolThrows ("Unable to regress, invalid task id " +:+ tid)).
      split_and!; [done| |done]. right. by split_and!. }
  exists pre, tid, post, r. split_and!; [done..|].
  intros evs Htool. cbn [perform]. rewrite Htool, Hcall.
  by destruct (perform evs s).
Qed.

Lemma ineligible_regression_target_rejected_witness :
  call_out_of_scope (mkTool (JsObject.set "a" "A" JsObject.empty) ["a"])
    ["a"; "b"] Fixtures.b_running
  = (ArgumentsRejected "b", Fixtures.b_running)
  ∧ (loop 2 (init_state Fixtures.self_regression)).1.1
    = [mkRecord "a" [] (Resolves (JNum 1)) None;
       mkRecord "b" [ArgumentsRejected "b"] (Resolves (JNum 2)) None].
Proof.
  split; [|vm_compute; reflexivity].
  destruct (ineligible_regression_target_rejected
              (this (loop 1 (init_state Fixtures.self_regression)).1.2) "b"
              (mkTool (JsObject.set "a" "A" JsObject.empty) ["a"])
              Fixtures.b_running ["a"; "b"])
    as (_ & _ & pre & tid & post & r & Hsplit & Hcase & Hcall & _).
  - vm_compute. reflexivity.
  - exists "b". split; [vm_compute; right; left | by left].
  - rewrite Hcall. f_equal.
    destruct pre as [|y [|z pre]]; simplify_eq/=.
    + exfalso. destruct Hcase as [([Heq|Hnin] & _)|([Hnin|Hnin] & _)];
        [done| | |]; apply Hnin; vm_compute; left.
    + by destruct Hcase as [(_ & _ & ->)|(_ & Hall & _)];
        [|apply Forall_cons in Hall as [_ [Hb _]%Forall_cons];
          vm_compute in Hb; apply list_elem_of_singleton in Hb].
    + destruct pre; discriminate.
Defined.

(** ** The visited set and the runs *)

Lemma perform_visited evs s :
  _visitedTasks (this (perform evs s).2) = _visitedTasks (this s).
Proof. destruct (perform_frame evs s) as [Hf _]. by rewrite Hf. Qed.

Lemma call_out_of_scope_visited tool task_ids s :
  _visitedTasks (this (call_out_of_scope tool task_ids s).2) = _visitedTasks (this s).
Proof.
  unfold call_out_of_scope. destruct (find _ task_ids); [done|].
  apply invoke_out_of_scope_visited.
Qed.

(** ** What the loop reads and what it writes *)

Lemma loop_config fuel s : config (loop fuel s).1.2 = config s.
Proof.
  revert s. induction fuel as [|fuel IH]; intros s;
    destruct (loop _ s) as [[tr sf] e] eqn:Hl;
    destruct (loop_case _ _ _ _ _ Hl)
      as [| | |fuel' taskId rest r s' err Hf Hq Hit
              |fuel' taskId rest r s' tr' Hf Hq Hit Hab Htr Hl'];
    simplify_eq/=; try done.
  - by pose proof (iteration_of_loop _ _ _ _ _ Hq Hit) as (_ & _ & _ & ? & _).
  - pose proof (iteration_of_loop _ _ _ _ _ Hq Hit) as (_ & _ & _ & Hc & _).
    specialize (IH s'). rewrite Hl' in IH. simpl in *. congruence.
Qed.

Lemma loop_results fuel s :
  taskResults (loop fuel s).1.2 =
  results_after_trace (_returnExceptions (this s)) (loop fuel s).1.1 (taskResults s).
Proof.
  revert s. induction fuel as [|fuel IH]; intros s;
    destruct (loop _ s) as [[tr sf] e] eqn:Hl;
    destruct (loop_case _ _ _ _ _ Hl)
      as [| | |fuel' taskId rest r s' err Hf Hq Hit
              |fuel' taskId rest r s' tr' Hf Hq Hit Hab Htr Hl'];
    unfold results_after_trace in *; simplify_eq/=; try done.
  - pose proof (iteration_of_loop _ _ _ _ _ Hq Hit) as (_ & _ & Hr & _).
    exact Hr.
  - pose proof (iteration_of_loop _ _ _ _ _ Hq Hit) as (_ & _ & Hr & Hc & _).
    specialize (IH s'). rewrite Hl' in IH. simpl in *.
    assert (_returnExceptions (this s') = _returnExceptions (this s)) as Hre
      by (unfold config in Hc; congruence).
    by rewrite IH, Hr, Hre.
Qed.

(** ** Finalization *)

(** C8.  With summarization enabled, whenever the loop has drained its
    queue and the summarization of the chat context the tasks have left
    throws, be it for want of a standard LLM, the group completes with the
    error "failed to summarize the chat_ctx:" followed by the cause,
    whatever the trace of the tasks was, and not with the results. *)
Theorem summarization_failure_is_fatal fuel g cause :
  _summarizeChatCtx g = true →
  (loop fuel (init_state g)).2 = Drained →
  SummarizationFails (this (loop fuel (init_state g)).1.2) cause →
  (onEnter fuel g).2
    = Some (Rejected (new_Error ("failed to summarize the chat_ctx: " +:+ cause)))
  ∧ ∀ results, (onEnter fuel g).2 ≠ Some (Resolved results).
Proof.
  intros Hsum Hdrained Hfails.
  assert ((onEnter fuel g).2
    = Some (Rejected (new_Error ("failed to summarize the chat_ctx: " +:+ cause))))
    as Ho; [|split; [done | intros results; by rewrite Ho]].
  unfold onEnter.
  pose proof (loop_config fuel (init_state g)) as Hcfg.
  destruct (loop fuel (init_state g)) as [[tr sf] e]. simpl in *. subst e.
  unfold config in Hcfg. simpl in Hcfg. unfold finalize.
  injection Hcfg as -> _ _ _ _. rewrite Hsum.
  destruct Hfails as [Hno|summarize repr -> ->]; [|done].
  destruct (session_llm (this sf)); [by edestruct Hno | done..].
Qed.

Lemma summarization_failure_is_fatal_witness :
  (onEnter 3 (add_all [(Fixtures.succeeds (JNum 1), "a", "A");
                       (Fixtures.succeeds (JNum 2), "b", "B")]
                (new_TaskGroup (mkOptions None None None None) RealtimeModel))).2
  = Some (Rejected (new_Error
      ("failed to summarize the chat_ctx: " +:+
       "Error: summarizeChatCtx requires a standard LLM on the session"))).
Proof.
  apply summarization_failure_is_fatal.
  - reflexivity.
  - vm_compute. reflexivity.
  - apply NoStandardLlm. intros summarize. vm_compute. discriminate.
Defined.

(** ** Failures and the failure policy *)

Lemma config_returnExceptions s s' :
  config s' = config s → _returnExceptions (this s') = _returnExceptions (this s).
Proof. unfold config. congruence. Qed.

Lemma config_registeredFactories s s' :
  config s' = config s →
  _registeredFactories (this s') = _registeredFactories (this s).
Proof. unfold config. congruence. Qed.

(** Under [returnExceptions] no iteration completes the group. *)
Lemma loop_collect_never_aborts fuel s err :
  _returnExceptions (this s) = true → (loop fuel s).2 ≠ Aborted err.
Proof.
  revert s. induction fuel as [|fuel IH]; intros s Hre;
    destruct (loop _ s) as [[tr sf] e] eqn:Hl;
    destruct (loop_case _ _ _ _ _ Hl)
      as [| | |fuel' taskId rest r s' err' Hf Hq Hit Hab
              |fuel' taskId rest r s' tr' Hf Hq Hit Hab Htr Hl'];
    simplify_eq/=; try done.
  - unfold abort_of in Hab. rewrite Hre in Hab. by destruct (failure_of r).
  - pose proof (iteration_of_loop _ _ _ _ _ Hq Hit) as (_ & _ & _ & Hc & _).
    apply config_returnExceptions in Hc. simpl in Hc.
    specialize (IH s'). rewrite Hl' in IH. apply IH. congruence.
Qed.


(** The state before the iteration that left a given record of the trace,
    and the loop from there. *)
Lemma loop_from_record fuel s pre rec post sf e :
  loop fuel s = (pre ++ rec :: post, sf, e) →
  ∃ fuel' s1 rest,
    config s1 = config s ∧
    taskStack s1 = it_taskId rec :: rest ∧
    (iteration (it_taskId rec) (set_taskStack rest s1)).1 = Some rec ∧
    taskResults s1
      = results_after_trace (_returnExceptions (this s)) pre (taskResults s) ∧
    loop (S fuel') s1 = (rec :: post, sf, e).
Proof.
  intros Hl.
  destruct (loop_split
              (λ done_ s1,
                 config s1 = config s ∧
                 taskResults s1
                 = results_after_trace (_returnExceptions (this s)) done_ (taskResults s))
              (λ _, True) fuel s [] pre rec post sf e)
    as (fuel' & s1 & rest & [_ Hres] & Hcfg & _ & Hq & Hit & Hl1); try done.
  - intros done_ s0 taskId rest r s' [Hc0 Hr0] _ Hq Hit.
    pose proof (iteration_of_loop _ _ _ _ _ Hq Hit) as (_ & _ & Hr & Hc & _).
    simpl in *. split; [congruence|].
    unfold results_after_trace in *. rewrite foldl_app. simpl.
    rewrite <- Hr0, Hr. by rewrite (config_returnExceptions _ _ Hc0).
  - by apply Forall_true.
  - by exists fuel', s1, rest.
Qed.

(** The loop at one of its iterations, read off the record. *)
Lemma loop_at_record fuel s taskId rest rec post sf e :
  taskStack s = taskId :: rest →
  (iteration taskId (set_taskStack rest s)).1 = Some rec →
  loop (S fuel) s = (rec :: post, sf, e) →
  it_taskId rec = taskId ∧
  match abort_of (_returnExceptions (this s)) rec with
  | Some err =>
      post = [] ∧ e = Aborted err ∧
      taskStack sf = stack_after rec rest ∧
      taskResults sf = results_after (_returnExceptions (this s)) rec (taskResults s)
  | None =>
      ∃ s', iteration taskId (set_taskStack rest s) = (Some rec, Continue s') ∧
            taskStack s' = stack_after rec rest ∧
            taskResults s'
            = results_after (_returnExceptions (this s)) rec (taskResults s) ∧
            config s' = config s ∧
            _visitedTasks (this s') = JsSet.add taskId (_visitedTasks (this s)) ∧
            loop fuel s' = (post, sf, e)
  end.
Proof.
  intros Hq Hrec Hl.
  destruct (loop_case _ _ _ _ _ Hl)
    as [| | |fuel' taskId' rest' r s' err' Hf Hq' Hit Hab
            |fuel' taskId' rest' r s' tr' Hf Hq' Hit Hab Htr Hl'];
    try done; clear Hl;
    rewrite Hq in Hq'; injection Hq' as <- <-; injection Hf as <-; simplify_eq.
  - pose proof (iteration_of_loop _ _ _ _ _ Hq Hit) as (? & ? & ? & _).
    rewrite Hab. by split_and!.
  - pose proof (iteration_of_loop _ _ _ _ _ Hq Hit) as (? & ? & ? & ? & ? & _).
    rewrite Hab. split; [done|]. exists s'. by split_and!.
Qed.

Lemma lookup_results_after_ne returnExceptions r (m : gmap string Entry) k :
  it_taskId r ≠ k → results_after returnExceptions r m !! k = m !! k.
Proof.
  intros Hne. unfold results_after.
  destruct (failure_of r) as [f|], returnExceptions, (it_run r);
    by rewrite ?JsObject_lookup_set_ne.
Qed.

Lemma lookup_results_after_proto returnExceptions r (m : gmap string Entry) :
  results_after returnExceptions r m !! "__proto__" = m !! "__proto__".
Proof.
  unfold results_after.
  destruct (failure_of r) as [f|], returnExceptions, (it_run r);
    by rewrite ?JsObject_lookup_set_proto.
Qed.

Lemma lookup_results_after_trace_ne returnExceptions tr (m : gmap string Entry) k :
  Forall (λ r, it_taskId r ≠ k) tr →
  results_after_trace returnExceptions tr m !! k = m !! k.
Proof.
  unfold results_after_trace. revert m.
  induction tr as [|r tr IH]; intros m Hne; [done|].
  apply Forall_cons in Hne as [Hr Hne]. simpl.
  by rewrite IH, lookup_results_after_ne.
Qed.

(** No run gives [taskResults] an own property [__proto__]. *)
Lemma loop_results_proto fuel s :
  taskResults (loop fuel s).1.2 !! "__proto__" = taskResults s !! "__proto__".
Proof.
  rewrite loop_results. unfold results_after_trace.
  generalize (loop fuel s).1.1 (taskResults s). intros tr.
  induction tr as [|r tr IH]; intros m; [done|].
  cbn [foldl]. by rewrite IH, lookup_results_after_proto.
Qed.

(** C1, as the code has it.  The callback is called inside the [try]
    block, so what it throws goes to the same [catch] as a task failure.
    Without [returnExceptions] the run ends at that iteration: no later
    record follows, the group completes with the failure (made an [Error]),
    and the entry of the task is still its result.  With
    [returnExceptions] the failure is assigned to [taskResults] under the
    id, after the result, and so replaces it as the entry of the task; the
    loop goes on with the rest of the queue and never completes the group
    with an error.  The entries are those of ids other than [__proto__], a
    key under which [taskResults] never has an own property. *)
Theorem callback_failure_follows_failure_policy fuel g pre rec post v f :
  (loop fuel (init_state g)).1.1 = pre ++ rec :: post →
  it_run rec = Resolves v →
  it_callback rec = Some (Some f) →
  let sf := (loop fuel (init_state g)).1.2 in
  let e := (loop fuel (init_state g)).2 in
  taskResults sf !! "__proto__" = None ∧
  if _returnExceptions g
  then (∀ err, e ≠ Aborted err) ∧
       ∃ fuel' s1 rest s',
         taskStack s1 = it_taskId rec :: rest ∧
         iteration (it_taskId rec) (set_taskStack rest s1) = (Some rec, Continue s') ∧
         taskStack s' = rest ∧
         taskResults s'
         = JsObject.set (it_taskId rec) (ECaught f)
             (JsObject.set (it_taskId rec) (EValue v) (taskResults s1)) ∧
         (it_taskId rec ≠ "__proto__" →
          taskResults s' !! it_taskId rec = Some (ECaught f)) ∧
         loop fuel' s' = (post, sf, e)
  else post = [] ∧ e = Aborted (asError f) ∧
       (onEnter fuel g).2 = Some (Rejected (asError f)) ∧
       (it_taskId rec ≠ "__proto__" →
        taskResults sf !! it_taskId rec = Some (EValue v)).
Proof.
  intros Htr Hrun Hcb sf e.
  pose proof (loop_collect_never_aborts fuel (init_state g)) as Hnever.
  pose proof (loop_results_proto fuel (init_state g)) as Hproto.
  unfold onEnter. subst sf e.
  destruct (loop fuel (init_state g)) as [[tr sf] e] eqn:Hl. simpl in *. subst tr.
  split; [done|].
  destruct (loop_from_record _ _ _ _ _ _ _ Hl)
    as (fuel' & s1 & rest & Hcfg & Hq & Hit & _ & Hl1).
  apply config_returnExceptions in Hcfg. simpl in Hcfg.
  pose proof (loop_at_record _ _ _ _ _ _ _ _ Hq Hit Hl1) as [_ Hat].
  rewrite Hcfg in Hat. unfold abort_of, results_after, stack_after, failure_of in Hat.
  rewrite Hrun, Hcb in Hat.
  destruct (_returnExceptions g).
  - split; [intros err; by apply Hnever|].
    destruct Hat as (s' & Hit' & Hq' & Hres & _ & _ & Hl').
    exists fuel', s1, rest, s'. split_and!; try done.
    intros Hk. by rewrite Hres, JsObject_lookup_set_eq.
  - destruct Hat as (-> & -> & _ & Hres). split_and!; try done.
    intros Hk. by rewrite Hres, JsObject_lookup_set_eq.
Qed.

Lemma callback_failure_follows_failure_policy_witness :
  (onEnter 3 (Fixtures.callback_throws false)).2
  = Some (Rejected (new_Error "callback-failure")).
Proof.
  pose proof (callback_failure_follows_failure_policy 3
                (Fixtures.callback_throws false) []
                (mkRecord "a" [] (Resolves (JNum 1))
                   (Some (Some (FailError (new_Error "callback-failure")))))
                [] (JNum 1) (FailError (new_Error "callback-failure"))) as H.
  simpl in H. destruct H as (_ & _ & _ & Ho & _); [reflexivity..|exact Ho].
Defined.

(** C1 as stated fails under [returnExceptions]: the callback throws after
    [a] resolved, the failure becomes the entry of [a], [b] runs all the
    same and the group completes with the results. *)
Lemma callback_failure_collected_not_fatal :
  (onEnter 3 (Fixtures.callback_throws true)).1.1
  = [mkRecord "a" [] (Resolves (JNum 1))
       (Some (Some (FailError (new_Error "callback-failure"))));
     mkRecord "b" [] (Resolves (JNum 2)) (Some None)]
  ∧ (onEnter 3 (Fixtures.callback_throws true)).2
    = Some (Resolved
              (<["b" := EValue (JNum 2)]>
                 (<["a" := ECaught (FailError (new_Error "callback-failure"))]> ∅))).
Proof. vm_compute. by split. Qed.

Lemma stack_after_no_regression r stack :
  is_regression r = false → stack_after r stack = stack.
Proof.
  unfold is_regression, stack_after. by destruct (it_run r) as [|[|]].
Qed.

Lemma fresh_queue_iteration s taskId rest r s' :
  fresh_queue s → is_regression r = false →
  taskStack s = taskId :: rest →
  iteration taskId (set_taskStack rest s) = (Some r, Continue s') →
  fresh_queue s'.
Proof.
  intros [Hnd Hnone] Hreg Hq Hit.
  pose proof (iteration_of_loop _ _ _ _ _ Hq Hit) as (Hid & Hq' & Hres & _).
  simpl in *. rewrite stack_after_no_regression in Hq' by done.
  rewrite Hq in Hnd, Hnone. apply NoDup_cons in Hnd as [Hnin Hnd].
  split; rewrite Hq'; [done|]. intros k Hk.
  rewrite Hres, lookup_results_after_ne; [apply Hnone; by right|].
  rewrite Hid. by intros ->.
Qed.

(** C4, as the code has it.  Without [returnExceptions], an iteration whose
    task fails is the last one: the loop ends there, the group completes
    with the task's error, and the results are those recorded by the
    iterations before it.  If none of these was a regression, the results
    hold no entry for the failing task nor for any task still queued. *)
Theorem fail_fast_task_failure_aborts options llm regs fuel pre rec post err :
  let g := add_all regs (new_TaskGroup options llm) in
  let sf := (loop fuel (init_state g)).1.2 in
  _returnExceptions g = false →
  (loop fuel (init_state g)).1.1 = pre ++ rec :: post →
  it_run rec = Rejects (Foreign (FailError err)) →
  post = [] ∧
  (loop fuel (init_state g)).2 = Aborted err ∧
  (onEnter fuel g).2 = Some (Rejected err) ∧
  taskResults sf = results_after_trace false pre ∅ ∧
  (Forall (λ r, is_regression r = false) pre →
   taskResults sf !! it_taskId rec = None ∧
   ∀ k, k ∈ taskStack sf → taskResults sf !! k = None).
Proof.
  intros g sf Hre Htr Hrun. unfold onEnter. subst sf.
  destruct (loop fuel (init_state g)) as [[tr sf] e] eqn:Hl. simpl in *. subst tr.
  assert (abort_of false rec = Some err ∧ (∀ st, stack_after rec st = st)
          ∧ ∀ m, results_after false rec m = m) as (Hab & Hst & Hra).
  { unfold abort_of, stack_after, results_after, failure_of. by rewrite Hrun. }
  destruct (loop_from_record _ _ _ _ _ _ _ Hl)
    as (fuel' & s1 & rest & Hcfg & Hq & Hit & Hres & Hl1).
  apply config_returnExceptions in Hcfg. simpl in Hcfg, Hres.
  pose proof (loop_at_record _ _ _ _ _ _ _ _ Hq Hit Hl1) as [_ Hat].
  rewrite Hcfg, Hre, Hab, Hra in Hat. destruct Hat as (-> & -> & _ & Hsf).
  split_and!; try done.
  { by rewrite Hsf, Hres, Hre. }
  intros Hnoreg.
  destruct (loop_split (λ _, fresh_queue) (λ r, is_regression r = false)
              fuel (init_state g) [] pre rec [] sf (Aborted err))
    as (fuel2 & s2 & rest2 & [Hnd Hnone] & Hcfg2 & _ & Hq2 & Hit2 & Hl2); try done.
  { intros _ s0 taskId rest0 r s' HI HP Hq0 Hit0.
    by eapply fresh_queue_iteration. }
  { split; simpl; [|done]. apply add_all_keys_NoDup. constructor. }
  apply config_returnExceptions in Hcfg2. simpl in Hcfg2.
  pose proof (loop_at_record _ _ _ _ _ _ _ _ Hq2 Hit2 Hl2) as [_ Hat].
  rewrite Hcfg2, Hre, Hab, Hra, Hst in Hat. destruct Hat as (_ & _ & Hq' & Hsf').
  rewrite Hsf', Hq'. rewrite Hq2 in Hnone.
  split; [apply Hnone; left | intros k Hk; apply Hnone; by right].
Qed.

Lemma fail_fast_task_failure_aborts_witness :
  (onEnter 5 (Fixtures.second_fails false)).2
  = Some (Rejected (new_Error "task-failure"))
  ∧ taskResults (loop 5 (init_state (Fixtures.second_fails false))).1.2 !! "bad" = None.
Proof.
  pose proof (fail_fast_task_failure_aborts
                (mkOptions (Some false) (Some false) None None) NoLlm
                [(Fixtures.succeeds (JStr "ok"), "good", "Succeeds");
                 (Fixtures.fails "task-failure", "bad", "Fails");
                 (Fixtures.succeeds (JStr "later"), "last", "runs after the failure")]
                5
                [mkRecord "good" [] (Resolves (JStr "ok")) None]
                (mkRecord "bad" []
                   (Rejects (Foreign (FailError (new_Error "task-failure")))) None)
                [] (new_Error "task-failure")) as H.
  cbv zeta in H.
  destruct H as (_ & _ & Ho & _ & Hfresh).
  - reflexivity.
  - vm_compute. reflexivity.
  - reflexivity.
  - split; [exact Ho|].
    destruct Hfresh as [Hbad _]; [by repeat constructor | exact Hbad].
Defined.

(** C4 as stated fails after a regression: [a] succeeds, [b] regresses to
    [a], the second run of [a] fails and aborts the run, and the results
    still hold the entry of the first run of [a]. *)
Lemma rerun_failure_leaves_earlier_entry :
  _returnExceptions Fixtures.rerun_fails = false
  ∧ (loop 5 (init_state Fixtures.rerun_fails)).1.1
    = [mkRecord "a" [] (Resolves (JNum 1)) None;
       mkRecord "b" [ToolReturns] (Rejects (OutOfScopeError ["a"])) None;
       mkRecord "a" [] (Rejects (Foreign (FailError (new_Error "boom")))) None]
  ∧ (loop 5 (init_state Fixtures.rerun_fails)).2 = Aborted (new_Error "boom")
  ∧ taskResults (loop 5 (init_state Fixtures.rerun_fails)).1.2 !! "a"
    = Some (EValue (JNum 1)).
Proof. vm_compute. by split_and!. Qed.

(** ** Regression *)

Lemma complete_foreign_checked s r :
  signal_checked s →
  signal_checked
    (set_currentTask (complete (completion_result r) <$> _currentTask (this s)) s).
Proof.
  intros Hs t targets Ht Hset. destruct s as [[] ? ? ?]. simpl in *.
  destruct _currentTask0 as [t0|]; [|done]. simpl in Ht. injection Ht as <-.
  unfold complete, done in Hset. destruct (settled t0) eqn:E.
  - eapply (Hs t0); [done|]. by rewrite <- Hset.
  - by destruct r.
Qed.

Lemma invoke_checked task_ids s :
  signal_checked s → signal_checked (invoke_out_of_scope task_ids s).2.
Proof.
  intros Hs. unfold invoke_out_of_scope, execute.
  destruct (find _ task_ids) eqn:Hfind; simpl.
  { by rewrite set_currentTask_same. }
  destruct (_currentTask (this s)) as [t0|] eqn:Ht0; simpl;
    [|by rewrite <- Ht0, set_currentTask_same].
  unfold done. destruct (settled t0) eqn:E; simpl;
    [by rewrite <- Ht0, set_currentTask_same|].
  intros t targets Ht Hset. destruct s as [[] ? ? ?]. simpl in *.
  injection Ht as <-. unfold complete, done in Hset. rewrite E in Hset.
  simpl in Hset. injection Hset as <-.
  apply find_none in Hfind. eapply Forall_impl; [exact Hfind|].
  intros k. by rewrite invalid_task_id_false.
Qed.

Lemma perform_checked evs s :
  signal_checked s → signal_checked (perform evs s).2.
Proof.
  revert s. induction evs as [|[task_ids|r] evs IH]; intros s Hs; simpl; [done| |].
  - destruct (_currentTask (this s) ≫= out_of_scope) as [tool|]; [|by apply IH].
    unfold call_out_of_scope. destruct (find _ task_ids).
    { specialize (IH s Hs). by destruct (perform evs s). }
    pose proof (invoke_checked task_ids s Hs) as Hi.
    destruct (invoke_out_of_scope task_ids s) as [res s'].
    specialize (IH s' Hi). by destruct (perform evs s').
  - by apply IH, complete_foreign_checked.
Qed.

(** The targets of a regression are registered, and visited. *)
Lemma iteration_regression_targets taskId s rec step targets :
  iteration taskId s = (Some rec, step) →
  it_run rec = Rejects (OutOfScopeError targets) →
  Forall (λ k, k ∈ JsMap.keys (_registeredFactories (this s))
               ∧ k ∈ JsSet.add taskId (_visitedTasks (this s))) targets.
Proof.
  unfold iteration.
  destruct (JsMap.get taskId _) as [factoryInfo|]; [|done].
  set (s0 := enter_task taskId factoryInfo s).
  assert (signal_checked s0 ∧
          _registeredFactories (this s0) = _registeredFactories (this s) ∧
          _visitedTasks (this s0) = JsSet.add taskId (_visitedTasks (this s)))
    as (Hs0 & <- & <-).
  { subst s0. unfold enter_task, signal_checked. destruct s as [[] ? ? ?]. simpl.
    destruct (buildOutOfScopeTool _ taskId); simpl; split_and!; try done;
      by intros t targets' [= <-]. }
  clearbody s0. unfold run.
  destruct (_currentTask (this s0)) as [t|] eqn:Ht; [|done].
  pose proof (perform_checked (events (behaviour t)) s0 Hs0) as Hp.
  pose proof (perform_frame (events (behaviour t)) s0) as [Hf _].
  destruct (perform (events (behaviour t)) s0) as [calls s1]. simpl in Hp, Hf.
  apply (complete_foreign_checked _ (finally (behaviour t))) in Hp.
  set (s2 := set_chatCtx _ (set_currentTask _ s1)).
  assert (signal_checked s2) as Hp2 by exact Hp.
  assert (_registeredFactories (this s2) = _registeredFactories (this s0) ∧
          _visitedTasks (this s2) = _visitedTasks (this s0)) as [Hr2 Hv2].
  { subst s2. rewrite Hf. by destruct s0 as [[] ? ? ?]. }
  assert (complete (completion_result (finally (behaviour t)))
            <$> _currentTask (this s1) = _currentTask (this s2)) as ->
    by (subst s2; by destruct s1 as [[] ? ? ?]).
  clear Hp. rename Hp2 into Hp. clearbody s2. unfold leave_task.
  destruct (_currentTask (this s2)) as [t2|] eqn:Ht2; simpl; [|done].
  destruct (settled t2) as [[v|e]|] eqn:Hset; [| |done].
  - destruct (_taskCompletedCallback (this s2)); simpl; rewrite ?Ht2;
      [destruct (o _ _)|]; by intros [= <- <-].
  - intros [= <- <-]. simpl. intros [= ->].
    rewrite <- Hr2, <- Hv2. by eapply Hp.
Qed.

Lemma registered_queue_iteration s taskId rest r s' :
  registered_queue s →
  taskStack s = taskId :: rest →
  iteration taskId (set_taskStack rest s) = (Some r, Continue s') →
  registered_queue s'.
Proof.
  intros Hreg Hq Hit k.
  pose proof (iteration_of_loop _ _ _ _ _ Hq Hit) as (Hid & Hq' & _ & Hc & _).
  apply config_registeredFactories in Hc. simpl in *. rewrite Hq', Hc.
  unfold stack_after. destruct (it_run r) as [v|[targets|f]] eqn:Hrun;
    try (intros Hk; apply Hreg; rewrite Hq; by right).
  pose proof (iteration_regression_targets _ _ _ _ _ Hit Hrun) as Ht.
  rewrite Forall_forall in Ht.
  rewrite elem_of_app, elem_of_cons. intros [Hk|[->|Hk]].
  - by apply Ht.
  - rewrite Hid. apply Hreg. rewrite Hq. left.
  - apply Hreg. rewrite Hq. by right.
Qed.

Lemma registered_queue_init g : registered_queue (init_state g).
Proof. by intros k. Qed.

(** No [TypeError] leaves the loop when the queued ids are registered. *)
Lemma loop_never_escapes fuel s :
  registered_queue s → (loop fuel s).2 ≠ Escaped.
Proof.
  revert s. induction fuel as [|fuel IH]; intros s Hreg;
    destruct (loop _ s) as [[tr sf] e] eqn:Hl;
    destruct (loop_case _ _ _ _ _ Hl)
      as [| |fuel' taskId rest Hf Hq Hget
            |fuel' taskId rest r s' err' Hf Hq Hit Hab
            |fuel' taskId rest r s' tr' Hf Hq Hit Hab Htr Hl'];
    simplify_eq/=; try done.
  - assert (is_Some (JsMap.get taskId (_registeredFactories (this s)))) as [? ?].
    { apply JsMap_get_Some_keys, Hreg. rewrite Hq. left. }
    congruence.
  - specialize (IH s'). rewrite Hl' in IH. apply IH.
    by eapply registered_queue_iteration.
Qed.

Lemma elem_of_stack_after r stack k : k ∈ stack → k ∈ stack_after r stack.
Proof.
  unfold stack_after. destruct (it_run r) as [|[targets|]]; try done.
  intros Hk. rewrite elem_of_app, elem_of_cons. tauto.
Qed.

(** When the loop drains the queue, every queued task has run. *)
Lemma loop_drained_all_run fuel s tr sf k :
  loop fuel s = (tr, sf, Drained) → k ∈ taskStack s → k ∈ it_taskId <$> tr.
Proof.
  revert s tr. induction fuel as [|fuel IH]; intros s tr Hl Hk;
    destruct (loop_case _ _ _ _ _ Hl)
      as [Hq| | |
         |fuel' taskId rest r s' tr' Hf Hq Hit Hab Htr Hl'];
    simplify_eq; try done.
  - rewrite Hq in Hk. by apply elem_of_nil in Hk.
  - rewrite Hq in Hk. by apply elem_of_nil in Hk.
  - pose proof (iteration_of_loop _ _ _ _ _ Hq Hit) as (Hid & Hq' & _).
    rewrite Hq in Hk. rewrite fmap_cons.
    apply elem_of_cons in Hk as [->|Hk]; [rewrite Hid; left|right].
    eapply IH; [done|]. simpl in Hq'. rewrite Hq'. by apply elem_of_stack_after.
Qed.

(** In a drained run, a task interrupted by a regression runs again. *)
Lemma loop_drained_regression_reruns fuel s pre r post sf :
  loop fuel s = (pre ++ r :: post, sf, Drained) →
  is_regression r = true → it_taskId r ∈ it_taskId <$> post.
Proof.
  intros Hl Hreg.
  destruct (loop_from_record _ _ _ _ _ _ _ Hl)
    as (fuel' & s1 & rest & _ & Hq & Hit & _ & Hl1).
  pose proof (loop_at_record _ _ _ _ _ _ _ _ Hq Hit Hl1) as [_ Hat].
  destruct (abort_of _ r); [by destruct Hat as (_ & ? & _)|].
  destruct Hat as (s' & _ & Hq' & _ & _ & _ & Hl').
  eapply loop_drained_all_run; [done|]. rewrite Hq'.
  unfold is_regression, stack_after in *.
  destruct (it_run r) as [|[targets|]]; try done.
  rewrite elem_of_app, elem_of_cons. tauto.
Qed.

Lemma last_record_of (tr : list IterRecord) k :
  k ∈ it_taskId <$> tr →
  ∃ pre r post, tr = pre ++ r :: post ∧ it_taskId r = k
                ∧ Forall (λ r', it_taskId r' ≠ k) post.
Proof.
  induction tr as [|r0 tr IH]; [by intros ?%elem_of_nil|].
  rewrite fmap_cons. intros Hk.
  destruct (decide (k ∈ it_taskId <$> tr)) as [Hin|Hnin].
  - destruct (IH Hin) as (pre & r & post & -> & ? & ?).
    by exists (r0 :: pre), r, post.
  - apply elem_of_cons in Hk as [->|?]; [|done].
    exists [], r0, tr. split_and!; [done..|].
    apply Forall_forall. intros r' Hr' Heq. apply Hnin.
    rewrite <- Heq. by apply list_elem_of_fmap_2.
Qed.

(** In a drained run the last run of a queued task was not interrupted, and
    the entry of the task in the results is the one this run left; a
    failure is left as an entry under [returnExceptions] only. *)
Lemma loop_drained_last_run fuel s tr sf k :
  loop fuel s = (tr, sf, Drained) → k ∈ taskStack s →
  ∃ pre r post,
    tr = pre ++ r :: post ∧ it_taskId r = k ∧ is_regression r = false
    ∧ Forall (λ r', it_taskId r' ≠ k) post
    ∧ (∀ f, failure_of r = Some f → _returnExceptions (this s) = true)
    ∧ (k ≠ "__proto__" → taskResults sf !! k = entry_of r).
Proof.
  intros Hl Hk.
  destruct (last_record_of tr k) as (pre & r & post & -> & Hid & Hpost).
  { by eapply loop_drained_all_run. }
  assert (is_regression r = false) as Hreg.
  { destruct (is_regression r) eqn:E; [|done].
    pose proof (loop_drained_regression_reruns _ _ _ _ _ _ Hl E) as Hin.
    apply list_elem_of_fmap in Hin as (r' & Heq & Hr').
    rewrite Forall_forall in Hpost. destruct (Hpost r' Hr'). congruence. }
  destruct (loop_from_record _ _ _ _ _ _ _ Hl)
    as (fuel' & s1 & rest & Hcfg & Hq & Hit & _ & Hl1).
  pose proof (loop_at_record _ _ _ _ _ _ _ _ Hq Hit Hl1) as [_ Hat].
  rewrite (config_returnExceptions _ _ Hcfg) in Hat.
  assert (∀ f, failure_of r = Some f → _returnExceptions (this s) = true) as Hre.
  { intros f Hf. unfold abort_of in Hat. rewrite Hf in Hat.
    destruct (_returnExceptions (this s)); [done | by destruct Hat as (_ & ? & _)]. }
  exists pre, r, post. split_and!; try done. intros Hproto.
  pose proof (loop_results fuel s) as Hres. rewrite Hl in Hres. simpl in Hres.
  rewrite Hres. unfold results_after_trace. rewrite foldl_app. simpl.
  fold (results_after_trace (_returnExceptions (this s)) pre (taskResults s)).
  set (m := results_after_trace _ pre _).
  fold (results_after_trace (_returnExceptions (this s)) post
          (results_after (_returnExceptions (this s)) r m)).
  rewrite lookup_results_after_trace_ne by done.
  unfold results_after, entry_of, is_regression in *.
  rewrite <- Hid in Hproto |- *.
  destruct (failure_of r) as [f|] eqn:Hf.
  - rewrite (Hre f eq_refl). by rewrite JsObject_lookup_set_eq.
  - destruct (it_run r) as [v|[targets|f]] eqn:Hrun; try done.
    + by rewrite JsObject_lookup_set_eq.
    + unfold failure_of in Hf. by rewrite Hrun in Hf.
Qed.

(** C2, as the code has it.  When the task of the iteration is interrupted
    by a regression signal with targets [targets], the next queue is the
    targets in their order (duplicates included), then the task, then what
    was queued; the results are untouched by the iteration; and whenever
    the rest of the loop drains the queue, the task has run again, its
    last run was not interrupted, and its entry in the results is the one
    this last run left: its result when it resolved and the callback did
    not throw, and the failure that was caught otherwise, which is left
    under [returnExceptions] only.  The entries are those of ids other
    than [__proto__]: the run gives [taskResults] no such property. *)
Theorem regression_requeues_targets_then_task s tid rest rec targets :
  taskStack s = tid :: rest →
  (iteration tid (set_taskStack rest s)).1 = Some rec →
  it_run rec = Rejects (OutOfScopeError targets) →
  ∃ s',
    iteration tid (set_taskStack rest s) = (Some rec, Continue s') ∧
    taskStack s' = targets ++ [tid] ++ rest ∧
    taskResults s' = taskResults s ∧
    ∀ fuel,
      loop (S fuel) s
        = (rec :: (loop fuel s').1.1, (loop fuel s').1.2, (loop fuel s').2) ∧
      taskResults (loop fuel s').1.2 !! "__proto__" = taskResults s !! "__proto__" ∧
      ((loop fuel s').2 = Drained →
       ∃ pre r post,
         (loop fuel s').1.1 = pre ++ r :: post ∧
         it_taskId r = tid ∧ is_regression r = false ∧
         Forall (λ r', it_taskId r' ≠ tid) post ∧
         (∀ f, failure_of r = Some f → _returnExceptions (this s) = true) ∧
         (tid ≠ "__proto__" →
          taskResults (loop fuel s').1.2 !! tid = entry_of r ∧
          (∀ v, it_run r = Resolves v → failure_of r = None →
                taskResults (loop fuel s').1.2 !! tid = Some (EValue v)) ∧
          (∀ f, failure_of r = Some f →
                taskResults (loop fuel s').1.2 !! tid = Some (ECaught f)))).
Proof.
  intros Hq Hrec Hrun.
  destruct (iteration tid (set_taskStack rest s)) as [rec' step] eqn:Hit.
  simpl in Hrec. subst rec'.
  pose proof (iteration_effect _ _ _ _ Hit) as (Hid & Hq' & Hres & Hstep & Hcfg & _).
  assert (failure_of rec = None) as Hf by (unfold failure_of; by rewrite Hrun).
  unfold abort_of in Hstep. unfold stack_after in Hq'. unfold results_after in Hres.
  rewrite Hf in Hstep, Hres. rewrite Hrun in Hq', Hres.
  change (taskStack (set_taskStack rest s)) with rest in Hq'.
  change (taskResults (set_taskStack rest s)) with (taskResults s) in Hres.
  apply config_returnExceptions in Hcfg.
  change (_returnExceptions (this (set_taskStack rest s)))
    with (_returnExceptions (this s)) in Hcfg.
  exists (step_state step). rewrite Hstep in Hit.
  split_and!; [by f_equal| by rewrite Hq', Hid |done|].
  intros fuel. rewrite (loop_S _ _ _ _ Hq), Hit.
  pose proof (loop_results_proto fuel (step_state step)) as Hproto.
  destruct (loop fuel (step_state step)) as [[tr sf] e] eqn:Hl.
  split; [done|]. cbn [fst snd] in *. split; [by rewrite Hproto, Hres|]. intros ->.
  destruct (loop_drained_last_run _ _ _ _ tid Hl)
    as (pre & r & post & ? & ? & ? & ? & Hre & Hentry).
  { rewrite Hq', Hid, elem_of_app, elem_of_cons. tauto. }
  exists pre, r, post. split_and!; try done.
  { intros f Hsome. rewrite <- Hcfg. by eapply Hre. }
  intros Hne. specialize (Hentry Hne). split_and!; [done| |].
  - intros v Hv Hnone. rewrite Hentry. unfold entry_of. by rewrite Hnone, Hv.
  - intros f Hsome. rewrite Hentry. unfold entry_of. by rewrite Hsome.
Qed.

Lemma regression_requeues_targets_then_task_witness :
  taskStack
    (step_state
       (iteration "email_task"
          (set_taskStack [] (loop 1 (init_state Fixtures.name_email)).1.2)).2)
  = ["name_task"; "email_task"]
  ∧ (onEnter 5 Fixtures.name_email).2
    = Some (Resolved (<["email_task" := EValue (JStr "bob@test.com")]>
                        (<["name_task" := EValue (JStr "Bob")]> ∅))).
Proof.
  split; [|vm_compute; reflexivity].
  destruct (regression_requeues_targets_then_task
              (loop 1 (init_state Fixtures.name_email)).1.2
              "email_task" []
              (mkRecord "email_task" [ToolReturns]
                 (Rejects (OutOfScopeError ["name_task"])) None)
              ["name_task"])
    as (s' & Hit & Hq & _).
  - vm_compute. reflexivity.
  - vm_compute. reflexivity.
  - reflexivity.
  - rewrite Hit. exact Hq.
Defined.

(** C2 as stated fails when the last run of the interrupted task fails
    under [returnExceptions]: [b] succeeds with [2], [c] regresses to [b],
    [b] is interrupted by a regression to [a], and when [b] runs again it
    fails.  The group resolves, and the entry of [b] is the failure that was
    caught, not the result of its last successful run. *)
Lemma interrupted_task_entry_is_caught_failure :
  (loop 7 (init_state Fixtures.last_run_fails)).1.1
  = [mkRecord "a" [] (Resolves (JNum 1)) None;
     mkRecord "b" [] (Resolves (JNum 2)) None;
     mkRecord "c" [ToolReturns] (Rejects (OutOfScopeError ["b"])) None;
     mkRecord "b" [ToolReturns] (Rejects (OutOfScopeError ["a"])) None;
     mkRecord "a" [] (Resolves (JNum 1)) None;
     mkRecord "b" [] (Rejects (Foreign (FailError (new_Error "boom")))) None;
     mkRecord "c" [] (Resolves (JNum 3)) None]
  ∧ (onEnter 7 Fixtures.last_run_fails).2
    = Some (Resolved
              (<["c" := EValue (JNum 3)]>
                 (<["b" := ECaught (FailError (new_Error "boom"))]>
                    (<["a" := EValue (JNum 1)]> ∅)))).
Proof. vm_compute. by split. Qed.

(** ** Runs without regression or failure *)

(** When no task regresses and no failure completes the group, the loop
    runs the queued tasks in order, one per iteration, and drains the
    queue. *)
Lemma loop_straight fuel s :
  registered_queue s →
  Forall (λ r, is_regression r = false
               ∧ abort_of (_returnExceptions (this s)) r = None)
    (loop fuel s).1.1 →
  length (taskStack s) ≤ fuel →
  (loop fuel s).2 = Drained ∧ it_taskId <$> (loop fuel s).1.1 = taskStack s.
Proof.
  revert s. induction fuel as [|fuel IH]; intros s Hreg;
    destruct (loop _ s) as [[tr sf] e] eqn:Hl;
    destruct (loop_case _ _ _ _ _ Hl)
      as [Hq| ? Hq|fuel' taskId rest Hf Hq Hget
            |fuel' taskId rest r s' err' Hf Hq Hit Hab
            |fuel' taskId rest r s' tr' Hf Hq Hit Hab Htr Hl'];
    clear Hl; simplify_eq; cbn [fst snd]; intros Hno Hlen;
    try (by rewrite Hq); try (rewrite Hq in Hlen; simpl in Hlen; lia).
  - destruct (taskStack s); [done | simpl in Hlen; lia].
  - exfalso.
    assert (is_Some (JsMap.get taskId (_registeredFactories (this s)))) as [? ?].
    { apply JsMap_get_Some_keys, Hreg. rewrite Hq. left. }
    congruence.
  - exfalso. apply Forall_cons in Hno as [[_ Hr] _]. congruence.
  - apply Forall_cons in Hno as [[Hr _] Hno].
    pose proof (iteration_of_loop _ _ _ _ _ Hq Hit) as (Hid & Hq' & _ & Hc & _).
    apply config_returnExceptions in Hc. cbn [step_state] in Hc, Hq'.
    rewrite stack_after_no_regression in Hq' by done.
    specialize (IH s'). rewrite Hl' in IH. cbn [fst snd] in IH.
    destruct IH as [-> Hids].
    + by eapply registered_queue_iteration.
    + by rewrite Hc.
    + rewrite Hq', Hq in *. simpl in Hlen. lia.
    + split; [done|]. rewrite fmap_cons, Hq, Hid. f_equal.
      by rewrite <- Hq', <- Hids.
Qed.

(** Fuel beyond what the loop needs changes nothing. *)
Lemma loop_more_fuel fuel more s :
  (loop fuel s).2 ≠ OutOfFuel → loop (fuel + more) s = loop fuel s.
Proof.
  revert s. induction fuel as [|fuel IH]; intros s.
  - simpl. destruct (taskStack s) eqn:Hq; [|done]. intros _. by apply loop_empty.
  - destruct (taskStack s) as [|taskId rest] eqn:Hq.
    { intros _. by rewrite !loop_empty. }
    change (S fuel + more) with (S (fuel + more)).
    rewrite !(loop_S _ _ _ _ Hq).
    destruct (iteration taskId (set_taskStack rest s)) as [rec [s'|s' e|s']];
      try done.
    specialize (IH s'). destruct (loop fuel s') as [[tr sf] e] eqn:Hl.
    cbn [snd] in *. intros He. by rewrite IH.
Qed.

(** The callback is called exactly when it is configured and the task
    resolved. *)
Lemma iteration_callback taskId s rec step v :
  iteration taskId s = (Some rec, step) →
  it_run rec = Resolves v →
  (is_Some (_taskCompletedCallback (this s)) → is_Some (it_callback rec))
  ∧ (_taskCompletedCallback (this s) = None → it_callback rec = None).
Proof.
  unfold iteration.
  destruct (JsMap.get taskId _) as [factoryInfo|]; [|done].
  destruct (run (enter_task taskId factoryInfo s)) as [[calls s1] r] eqn:Hrun.
  apply run_enter_frame in Hrun as (_ & _ & Hcfg & _ & _ & [t Ht] & [rr ->]).
  assert (_taskCompletedCallback (this s1) = _taskCompletedCallback (this s)) as Hcb
    by (unfold config in Hcfg; congruence).
  unfold leave_task. destruct rr as [v'|e]; simpl.
  - rewrite Ht, Hcb. destruct (_taskCompletedCallback (this s)) as [callback|].
    + destruct (callback _ _); intros [= <- <-] _; simpl; by split.
    + intros [= <- <-] _. simpl. split; [by intros [? ?] | done].
  - intros [= <- <-]. simpl. done.
Qed.

Lemma callback_calls_all val (tr : list IterRecord) :
  Forall (λ r, it_run r = Resolves (val (it_taskId r)) ∧ is_Some (it_callback r)) tr →
  callback_calls tr = (λ k, (k, val k)) <$> (it_taskId <$> tr).
Proof.
  unfold callback_calls. induction tr as [|r tr IH]; [done|].
  intros [[Hrun [c Hc]] Htr]%Forall_cons. simpl. rewrite Hrun, Hc. simpl.
  f_equal. by apply IH.
Qed.

Lemma callback_calls_none (tr : list IterRecord) :
  Forall (λ r, it_callback r = None) tr → callback_calls tr = [].
Proof.
  unfold callback_calls. induction tr as [|r tr IH]; [done|].
  intros [Hc Htr]%Forall_cons. simpl. rewrite Hc.
  destruct (it_run r); by apply IH.
Qed.

Lemma foldl_set_list_to_map {A} (f : string → A) (l : list string)
    (m : gmap string A) :
  NoDup l →
  foldl (λ m k, JsObject.set k (f k) m) m l
  = list_to_map ((λ k, (k, f k)) <$> filter (λ k, k ≠ "__proto__") l) ∪ m.
Proof.
  revert m. induction l as [|k l IH]; intros m Hnd.
  - simpl. by rewrite (left_id_L ∅ (∪)).
  - apply NoDup_cons in Hnd as [Hk Hnd]. cbn [foldl]. rewrite IH by done.
    unfold JsObject.set. destruct (decide (k = "__proto__")) as [->|Hne].
    + by rewrite filter_cons_False by (by intros ?).
    + rewrite filter_cons_True by done.
      rewrite fmap_cons, list_to_map_cons.
      rewrite <- insert_union_l. symmetry. apply insert_union_r.
      apply not_elem_of_list_to_map_1. rewrite <- list_fmap_compose.
      rewrite (list_fmap_ext _ (λ k, k) (filter (λ k, k ≠ "__proto__") l)),
        list_fmap_id by done.
      by intros [_ ?]%list_elem_of_filter.
Qed.

Lemma results_after_trace_success returnExceptions val (tr : list IterRecord)
    (m : gmap string Entry) :
  Forall (λ r, it_run r = Resolves (val (it_taskId r)) ∧ failure_of r = None) tr →
  results_after_trace returnExceptions tr m
  = foldl (λ m k, JsObject.set k (EValue (val k)) m) m (it_taskId <$> tr).
Proof.
  unfold results_after_trace. revert m.
  induction tr as [|r tr IH]; intros m; [done|].
  intros [[Hrun Hf] Htr]%Forall_cons. rewrite fmap_cons. cbn [foldl].
  rewrite IH by done. f_equal. unfold results_after. by rewrite Hrun, Hf.
Qed.

(** ** Collecting failures *)

(** C5, as the code has it.  Under [returnExceptions], an iteration whose
    task fails assigns the failure itself to [taskResults] under the id of
    the task (its entry, for an id other than [__proto__]) and goes on
    with the tasks still queued; the loop never completes the group with
    an error and no exception leaves it.  Whenever the loop drains the
    queue every task that was queued has run, and when no later task
    regresses the next iterations run exactly the queued tasks, in order,
    and drain it. *)
Theorem collected_failure_is_recorded_and_loop_continues fuel g pre rec post f :
  let sf := (loop fuel (init_state g)).1.2 in
  let e := (loop fuel (init_state g)).2 in
  _returnExceptions g = true →
  (loop fuel (init_state g)).1.1 = pre ++ rec :: post →
  it_run rec = Rejects (Foreign f) →
  (∀ err, e ≠ Aborted err) ∧ e ≠ Escaped ∧
  taskResults sf !! "__proto__" = None ∧
  ∃ fuel' s1 rest s',
    taskStack s1 = it_taskId rec :: rest ∧
    iteration (it_taskId rec) (set_taskStack rest s1) = (Some rec, Continue s') ∧
    taskStack s' = rest ∧
    taskResults s' = JsObject.set (it_taskId rec) (ECaught f) (taskResults s1) ∧
    (it_taskId rec ≠ "__proto__" →
     taskResults s' !! it_taskId rec = Some (ECaught f)) ∧
    loop fuel' s' = (post, sf, e) ∧
    (e = Drained → ∀ k, k ∈ rest → k ∈ it_taskId <$> post) ∧
    (Forall (λ r, is_regression r = false) post → length rest ≤ fuel' →
     e = Drained ∧ it_taskId <$> post = rest).
Proof.
  intros sf e Hre Htr Hrun.
  pose proof (loop_collect_never_aborts fuel (init_state g)) as Hnever.
  pose proof (loop_never_escapes fuel (init_state g) (registered_queue_init g)) as Hesc.
  pose proof (loop_results_proto fuel (init_state g)) as Hproto.
  subst sf e.
  destruct (loop fuel (init_state g)) as [[tr sf] e] eqn:Hl. simpl in *. subst tr.
  split_and!; [intros err; by apply Hnever | done | done |].
  destruct (loop_split (λ _, registered_queue) (λ _, True)
              fuel (init_state g) [] pre rec post sf e)
    as (fuel' & s1 & rest & Hreg & Hcfg & _ & Hq & Hit & Hl1); try done.
  { intros _ s0 taskId rest0 r s' HI _ Hq0 Hit0.
    by eapply registered_queue_iteration. }
  { by apply Forall_true. }
  { apply registered_queue_init. }
  apply config_returnExceptions in Hcfg. simpl in Hcfg.
  pose proof (loop_at_record _ _ _ _ _ _ _ _ Hq Hit Hl1) as [_ Hat].
  rewrite Hcfg, Hre in Hat.
  unfold abort_of, stack_after, results_after, failure_of in Hat.
  rewrite Hrun in Hat. destruct Hat as (s' & Hit' & Hq' & Hres & Hcfg' & _ & Hl').
  exists fuel', s1, rest, s'. split_and!; try done.
  - intros Hk. by rewrite Hres, JsObject_lookup_set_eq.
  - intros -> k Hk. eapply loop_drained_all_run; [done|]. by rewrite Hq'.
  - intros Hno Hlen.
    pose proof (loop_straight fuel' s') as Hdrain.
    rewrite Hl', Hq' in Hdrain. cbn [fst snd] in Hdrain. apply Hdrain; try done.
    + by eapply registered_queue_iteration.
    + apply config_returnExceptions in Hcfg'. rewrite Hcfg', Hcfg, Hre.
      eapply Forall_impl; [exact Hno|]. intros r Hr. split; [done|].
      unfold abort_of. by destruct (failure_of r).
Qed.

Lemma collected_failure_is_recorded_and_loop_continues_witness :
  (onEnter 3 (Fixtures.second_fails true)).2
  = Some (Resolved
            (<["last" := EValue (JStr "later")]>
               (<["bad" := ECaught (FailError (new_Error "task-failure"))]>
                  (<["good" := EValue (JStr "ok")]> ∅))))
  ∧ ∀ err, (loop 3 (init_state (Fixtures.second_fails true))).2 ≠ Aborted err.
Proof.
  split; [vm_compute; reflexivity|].
  eapply (collected_failure_is_recorded_and_loop_continues 3
            (Fixtures.second_fails true)
            [mkRecord "good" [] (Resolves (JStr "ok")) None]
            (mkRecord "bad" []
               (Rejects (Foreign (FailError (new_Error "task-failure")))) None)
            [mkRecord "last" [] (Resolves (JStr "later")) None]
            (FailError (new_Error "task-failure"))).
  - reflexivity.
  - vm_compute. reflexivity.
  - reflexivity.
Defined.

(** C5 as stated fails when a later task keeps regressing: [a] fails and
    its failure is collected, [b] regresses to [a] on every run, and [c],
    queued behind them, has not run after sixty iterations, which leave
    the queue as it was at the start. *)
Lemma repeating_regression_starves_queue :
  _returnExceptions Fixtures.regression_loop = true
  ∧ (loop 60 (init_state Fixtures.regression_loop)).1.1 !! 0
    = Some (mkRecord "a" []
              (Rejects (Foreign (FailError (new_Error "boom")))) None)
  ∧ taskStack (loop 1 (init_state Fixtures.regression_loop)).1.2 = ["b"; "c"]
  ∧ (loop 60 (init_state Fixtures.regression_loop)).1.1 !! 1
    = Some (mkRecord "b" [ToolReturns] (Rejects (OutOfScopeError ["a"])) None)
  ∧ length (loop 60 (init_state Fixtures.regression_loop)).1.1 = 60
  ∧ Forall (λ r, it_taskId r ≠ "c")
      (loop 60 (init_state Fixtures.regression_loop)).1.1
  ∧ (loop 60 (init_state Fixtures.regression_loop)).2 = OutOfFuel
  ∧ taskStack (loop 60 (init_state Fixtures.regression_loop)).1.2 = ["a"; "b"; "c"].
Proof.
  split_and!; try (vm_compute; reflexivity).
  apply (bool_decide_unpack _). vm_compute. exact I.
Qed.

(** ** Runs in which every task succeeds *)

(** C6, as the code has it.  Take the group built by any [add] calls and
    let [O] be its keys, the registration order.  If in the first
    [length O] iterations every task resolves, with [val k] for task [k],
    and the callback does not throw, then these iterations drain the
    queue, the tasks run in the order [O], the callback, when there is
    one, is called once per task in that order with the task's result, the
    results map each id other than [__proto__] to its value, the group
    completes with these results when the finalization does not throw, and
    more iterations are never needed. *)
Theorem all_succeed_in_registration_order options llm regs val :
  let g := add_all regs (new_TaskGroup options llm) in
  let O := JsMap.keys (_registeredFactories g) in
  let tr := (loop (length O) (init_state g)).1.1 in
  let sf := (loop (length O) (init_state g)).1.2 in
  let results : gmap string Entry :=
    list_to_map ((λ k, (k, EValue (val k))) <$> filter (λ k, k ≠ "__proto__") O) in
  Forall (λ r, it_run r = Resolves (val (it_taskId r)) ∧ failure_of r = None) tr →
  (loop (length O) (init_state g)).2 = Drained ∧
  it_taskId <$> tr = O ∧
  (is_Some (_taskCompletedCallback g) →
   callback_calls tr = (λ k, (k, val k)) <$> O) ∧
  (_taskCompletedCallback g = None → callback_calls tr = []) ∧
  taskResults sf = results ∧
  (∀ k, k ∈ O → k ≠ "__proto__" → results !! k = Some (EValue (val k))) ∧
  (finalization_succeeds (this sf) →
   (onEnter (length O) g).2 = Some (Resolved results)) ∧
  (∀ more, loop (length O + more) (init_state g) = loop (length O) (init_state g)).
Proof.
  intros g O tr sf results Hall.
  assert (NoDup O) as HO by (apply add_all_keys_NoDup; constructor).
  pose proof (loop_straight (length O) (init_state g) (registered_queue_init g))
    as Hstraight.
  pose proof (loop_results (length O) (init_state g)) as Hres.
  pose proof (loop_config (length O) (init_state g)) as Hcfg.
  pose proof (loop_more_fuel (length O)) as Hmore.
  unfold onEnter. subst tr sf.
  destruct (loop (length O) (init_state g)) as [[tr sf] e] eqn:Hl.
  cbn [fst snd] in *.
  destruct Hstraight as [-> Hids]; [|done|].
  { eapply Forall_impl; [exact Hall|]. intros r [Hrun Hf].
    unfold is_regression, abort_of. by rewrite Hrun, Hf. }
  change (taskStack (init_state g)) with O in Hids.
  assert (taskResults sf = results) as Hresults.
  { rewrite Hres, (results_after_trace_success _ val) by done.
    change (taskResults (init_state g)) with (∅ : gmap string Entry).
    rewrite Hids, foldl_set_list_to_map by done.
    by rewrite (right_id_L ∅ (∪)). }
  assert (∀ r, r ∈ tr →
            (is_Some (_taskCompletedCallback g) → is_Some (it_callback r))
            ∧ (_taskCompletedCallback g = None → it_callback r = None)) as Hcb.
  { intros r Hr. apply list_elem_of_split in Hr as (pre & post & ->).
    destruct (loop_from_record _ _ _ _ _ _ _ Hl)
      as (fuel' & s1 & rest & Hc1 & _ & Hit & _).
    assert (_taskCompletedCallback (this s1) = _taskCompletedCallback g) as <-
      by (unfold config in Hc1; simpl in Hc1; congruence).
    destruct (iteration (it_taskId r) (set_taskStack rest s1)) as [r' step] eqn:E.
    simpl in Hit. subst r'.
    rewrite Forall_forall in Hall. destruct (Hall r) as [Hrun _].
    { rewrite elem_of_app, elem_of_cons. tauto. }
    exact (iteration_callback _ _ _ _ _ E Hrun). }
  split_and!; try done.
  - intros Hsome. rewrite <- Hids. apply callback_calls_all.
    apply Forall_forall. intros r Hr. rewrite Forall_forall in Hall.
    split; [by apply Hall | by apply Hcb].
  - intros Hnone. apply callback_calls_none, Forall_forall.
    intros r Hr. by apply Hcb.
  - intros k Hk Hne. subst results.
    apply elem_of_list_to_map_1.
    + rewrite <- list_fmap_compose.
      rewrite (list_fmap_ext _ (λ k, k) (filter (λ k, k ≠ "__proto__") O)),
        list_fmap_id by done.
      by apply NoDup_filter.
    + apply list_elem_of_fmap. exists k. split; [done|].
      by apply list_elem_of_filter.
  - intros Hfin. unfold finalize. rewrite Hresults.
    destruct Hfin as [->|(summarize & summary & -> & ->)]; [done|].
    by destruct (_summarizeChatCtx (this sf)).
  - intros more. rewrite <- Hl. apply Hmore. by rewrite Hl.
Qed.

Lemma all_succeed_in_registration_order_witness :
  it_taskId <$> (loop 3 (init_state Fixtures.abc)).1.1 = ["a"; "b"; "c"]
  ∧ (onEnter 3 Fixtures.abc).2
    = Some (Resolved (list_to_map [("a", EValue (JNum 1));
                                   ("b", EValue (JNum 2));
                                   ("c", EValue (JNum 3))])).
Proof.
  pose proof (all_succeed_in_registration_order Fixtures.plain NoLlm
                [(Fixtures.succeeds (JNum 1), "a", "A");
                 (Fixtures.succeeds (JNum 2), "b", "B");
                 (Fixtures.succeeds (JNum 3), "c", "C")]
                (λ k, if decide (k = "a") then JNum 1
                      else if decide (k = "b") then JNum 2 else JNum 3)) as H.
  cbv zeta in H.
  destruct H as (_ & Hids & _ & _ & _ & _ & Hout & _).
  - vm_compute. repeat constructor.
  - split; [exact Hids|]. apply Hout. by left.
Defined.

(** C6 as stated fails in three ways.  With the default options and no
    standard LLM in the session, [a], [b] and [c] succeed with [1], [2]
    and [3] and the group completes with the summarization error.  When
    the callback throws for [a], without [returnExceptions], [b] does not
    run.  And a task registered as [__proto__] runs and succeeds, and the
    results have no entry for it. *)
Lemma all_succeed_without_result_map :
  ((loop 3 (init_state Fixtures.abc_default)).1.1
   = [mkRecord "a" [] (Resolves (JNum 1)) None;
      mkRecord "b" [] (Resolves (JNum 2)) None;
      mkRecord "c" [] (Resolves (JNum 3)) None]
   ∧ (onEnter 3 Fixtures.abc_default).2
     = Some (Rejected (new_Error
         ("failed to summarize the chat_ctx: " +:+
          "Error: summarizeChatCtx requires a standard LLM on the session"))))
  ∧ ((onEnter 3 (Fixtures.callback_throws false)).1.1
     = [mkRecord "a" [] (Resolves (JNum 1))
          (Some (Some (FailError (new_Error "callback-failure"))))]
     ∧ (onEnter 3 (Fixtures.callback_throws false)).2
       = Some (Rejected (new_Error "callback-failure")))
  ∧ ((loop 2 (init_state Fixtures.proto_task)).1.1
     = [mkRecord "a" [] (Resolves (JNum 1)) None;
        mkRecord "__proto__" [] (Resolves (JNum 2)) None]
     ∧ (onEnter 2 Fixtures.proto_task).2
       = Some (Resolved (<["a" := EValue (JNum 1)]> ∅))).
Proof. vm_compute. by split_and!. Qed.

(** * Further properties of the scheduler *)

(** ** The queue and the registry *)

Lemma iteration_record_registered taskId s rec :
  (iteration taskId s).1 = Some rec →
  it_taskId rec = taskId ∧ taskId ∈ JsMap.keys (_registeredFactories (this s)).
Proof.
  destruct (iteration taskId s) as [r step] eqn:Hit. simpl. intros ->.
  pose proof (iteration_effect _ _ _ _ Hit) as (Hid & _). split; [done|].
  apply JsMap_get_Some_keys. unfold iteration in Hit.
  by destruct (JsMap.get taskId _).
Qed.

Lemma loop_records_registered fuel s :
  Forall (λ r, it_taskId r ∈ JsMap.keys (_registeredFactories (this s)))
    (loop fuel s).1.1.
Proof.
  destruct (loop fuel s) as [[tr sf] e] eqn:Hl. simpl.
  apply Forall_forall. intros r Hr.
  apply list_elem_of_split in Hr as (pre & post & ->).
  destruct (loop_from_record _ _ _ _ _ _ _ Hl)
    as (fuel' & s1 & rest & Hcfg & _ & Hit & _).
  apply iteration_record_registered in Hit as [_ Hin].
  by rewrite <- (config_registeredFactories _ _ Hcfg).
Qed.

Lemma loop_registered_queue fuel s :
  registered_queue s → registered_queue (loop fuel s).1.2.
Proof.
  revert s. induction fuel as [|fuel IH]; intros s Hreg;
    destruct (loop _ s) as [[tr sf] e] eqn:Hl;
    destruct (loop_case _ _ _ _ _ Hl)
      as [| |fuel' taskId rest Hf Hq Hget
            |fuel' taskId rest r s' err' Hf Hq Hit Hab
            |fuel' taskId rest r s' tr' Hf Hq Hit Hab Htr Hl'];
    clear Hl; simplify_eq; cbn [fst snd]; try done.
  - intros k Hk. apply Hreg. rewrite Hq. by right.
  - intros k Hk.
    pose proof (iteration_of_loop _ _ _ _ _ Hq Hit) as (_ & Hq' & _ & Hc & _).
    apply config_registeredFactories in Hc. cbn [step_state] in *.
    rewrite Hc. apply Hreg. rewrite Hq. right.
    unfold abort_of, stack_after, failure_of in *. rewrite Hq' in Hk.
    by destruct (it_run r) as [|[|]].
  - specialize (IH s'). rewrite Hl' in IH. apply IH.
    by eapply registered_queue_iteration.
Qed.

(** X1.  Whatever the tasks do, the lookup [get(taskId)!] never meets an
    unregistered id in a run of [onEnter]: no [TypeError] leaves the loop,
    every task that ran is registered, and so is every id left in the
    queue. *)
Theorem onEnter_only_runs_registered_tasks fuel g :
  (loop fuel (init_state g)).2 ≠ Escaped
  ∧ Forall (λ r, it_taskId r ∈ JsMap.keys (_registeredFactories g))
      (loop fuel (init_state g)).1.1
  ∧ (∀ k, k ∈ taskStack (loop fuel (init_state g)).1.2 →
          k ∈ JsMap.keys (_registeredFactories g)).
Proof.
  split_and!.
  - apply loop_never_escapes, registered_queue_init.
  - apply (loop_records_registered fuel (init_state g)).
  - intros k Hk.
    pose proof (loop_registered_queue fuel (init_state g)
                  (registered_queue_init g) k Hk) as Hin.
    pose proof (loop_config fuel (init_state g)) as Hc.
    by rewrite (config_registeredFactories _ _ Hc) in Hin.
Qed.

(** ** What the results hold *)

Lemma entry_of_is_Some r : is_regression r = false → is_Some (entry_of r).
Proof.
  unfold is_regression, entry_of, failure_of.
  destruct (it_run r) as [v|[targets|f]]; try done.
  by destruct (it_callback r) as [[f|]|].
Qed.

Lemma loop_results_dom fuel s k :
  is_Some (taskResults (loop fuel s).1.2 !! k) →
  is_Some (taskResults s !! k) ∨ k ∈ it_taskId <$> (loop fuel s).1.1.
Proof.
  rewrite loop_results.
  destruct (decide (k ∈ it_taskId <$> (loop fuel s).1.1)) as [|Hnin]; [by right|].
  rewrite lookup_results_after_trace_ne; [by left|].
  apply Forall_forall. intros r Hr Heq. apply Hnin.
  rewrite <- Heq. by apply list_elem_of_fmap_2.
Qed.

(** X2.  When the group resolves, its results have an entry for every
    registered id other than [__proto__] and for no other key. *)
Theorem resolved_results_cover_registry fuel g results :
  (onEnter fuel g).2 = Some (Resolved results) →
  ∀ k, is_Some (results !! k)
       ↔ k ∈ JsMap.keys (_registeredFactories g) ∧ k ≠ "__proto__".
Proof.
  unfold onEnter.
  pose proof (loop_results_dom fuel (init_state g)) as Hdom.
  pose proof (loop_records_registered fuel (init_state g)) as Hreg.
  pose proof (loop_results_proto fuel (init_state g)) as Hproto.
  destruct (loop fuel (init_state g)) as [[tr sf] e] eqn:Hl.
  cbn [fst snd] in *. destruct e; try done.
  assert (results = taskResults sf → ∀ k,
            is_Some (results !! k)
            ↔ k ∈ JsMap.keys (_registeredFactories g) ∧ k ≠ "__proto__") as Hmain.
  { intros -> k. split.
    - intros Hsome. split.
      + apply Hdom in Hsome as [Hk|Hk]; [by destruct Hk|].
        apply list_elem_of_fmap in Hk as (r & -> & Hr).
        rewrite Forall_forall in Hreg. by apply Hreg.
      + intros ->. rewrite Hproto in Hsome. by destruct Hsome.
    - intros [Hk Hne].
      destruct (loop_drained_last_run _ _ _ _ k Hl Hk)
        as (pre & r & post & _ & _ & Hnoreg & _ & _ & Hentry).
      rewrite (Hentry Hne). by apply entry_of_is_Some. }
  unfold finalize. destruct (_summarizeChatCtx (this sf)).
  - destruct (session_llm (this sf)) as [summarize| |]; try done.
    destruct (summarize _); [|done]. cbn [snd]. intros [= <-]. by apply Hmain.
  - cbn [snd]. intros [= <-]. by apply Hmain.
Qed.

Lemma resolved_results_cover_registry_witness :
  is_Some ((<["a" := EValue (JNum 1)]> ∅ : gmap string Entry) !! "__proto__")
  ↔ "__proto__" ∈ ["a"; "__proto__"] ∧ "__proto__" ≠ "__proto__".
Proof.
  apply (resolved_results_cover_registry 2 Fixtures.proto_task).
  vm_compute. reflexivity.
Defined.

Lemma results_after_false_values r (m : gmap string Entry) :
  (∀ k e, m !! k = Some e → ∃ v, e = EValue v) →
  ∀ k e, results_after false r m !! k = Some e → ∃ v, e = EValue v.
Proof.
  intros Hm k e. unfold results_after.
  assert (∀ k e, match it_run r with
                 | Resolves v => JsObject.set (it_taskId r) (EValue v) m
                 | Rejects _ => m
                 end !! k = Some e → ∃ v, e = EValue v) as Hm'.
  { intros k' e'. destruct (it_run r) as [v|]; [|apply Hm].
    unfold JsObject.set. case_decide; [apply Hm|].
    destruct (decide (it_taskId r = k')) as [->|Hne].
    - rewrite lookup_insert_eq. intros [= <-]. by eexists.
    - rewrite lookup_insert_ne by done. apply Hm. }
  destruct (failure_of r); apply Hm'.
Qed.

(** X3.  Without [returnExceptions] a caught failure is never stored: at
    every moment of a run every entry of the results is the value a task
    resolved with. *)
Theorem fail_fast_results_hold_values_only fuel g k e :
  _returnExceptions g = false →
  taskResults (loop fuel (init_state g)).1.2 !! k = Some e →
  ∃ v, e = EValue v.
Proof.
  intros Hre. rewrite loop_results. cbn [init_state this taskResults].
  rewrite Hre. unfold results_after_trace.
  generalize (loop fuel (init_state g)).1.1. intros tr. revert k e.
  induction tr as [|r tr IH] using rev_ind; intros k e.
  - cbn [foldl]. unfold JsObject.empty. by rewrite lookup_empty.
  - rewrite foldl_app. cbn [foldl]. by apply results_after_false_values.
Qed.

Lemma fail_fast_results_hold_values_only_witness :
  ∃ v, EValue (JNum 1) = EValue v.
Proof.
  apply (fail_fast_results_hold_values_only 5 Fixtures.rerun_fails "a").
  - reflexivity.
  - vm_compute. reflexivity.
Defined.

(** ** How a run ends *)

Lemma loop_aborted_last fuel s err :
  (loop fuel s).2 = Aborted err →
  _returnExceptions (this s) = false ∧
  ∃ pre r f,
    (loop fuel s).1.1 = pre ++ [r] ∧ failure_of r = Some f ∧ err = asError f ∧
    Forall (λ r', failure_of r' = None) pre.
Proof.
  revert s. induction fuel as [|fuel IH]; intros s;
    destruct (loop _ s) as [[tr sf] e] eqn:Hl;
    destruct (loop_case _ _ _ _ _ Hl)
      as [| |fuel' taskId rest Hf Hq Hget
            |fuel' taskId rest r s' err' Hf Hq Hit Hab
            |fuel' taskId rest r s' tr' Hf Hq Hit Hab Htr Hl'];
    clear Hl; simplify_eq; cbn [fst snd]; try done.
  - intros [= ->]. unfold abort_of in Hab.
    destruct (failure_of r) as [f|] eqn:Hf; [|done].
    destruct (_returnExceptions (this s)); [done|]. injection Hab as <-.
    split; [done|]. by exists [], r, f.
  - intros ->.
    pose proof (iteration_of_loop _ _ _ _ _ Hq Hit) as (_ & _ & _ & Hc & _).
    apply config_returnExceptions in Hc. cbn [step_state] in Hc.
    specialize (IH s'). rewrite Hl' in IH. cbn [fst snd] in IH.
    destruct IH as (Hre & pre & r' & f & -> & Hf & -> & Hpre); [done|].
    rewrite Hc in Hre. split; [done|].
    exists (r :: pre), r', f. split_and!; try done.
    constructor; [|done]. unfold abort_of in Hab. rewrite Hre in Hab.
    by destruct (failure_of r).
Qed.

(** X4.  When the group completes with an error that the loop raised, the
    failure policy is fail-fast, the error is the failure of the last
    iteration (that of its task or of the callback, made an [Error]), and
    no earlier iteration had a failure: the first failure is the one
    surfaced. *)
Theorem fail_fast_surfaces_first_failure fuel g err :
  (loop fuel (init_state g)).2 = Aborted err →
  _returnExceptions g = false ∧
  (onEnter fuel g).2 = Some (Rejected err) ∧
  ∃ pre r f,
    (loop fuel (init_state g)).1.1 = pre ++ [r] ∧
    failure_of r = Some f ∧ err = asError f ∧
    Forall (λ r', failure_of r' = None) pre.
Proof.
  intros Hab.
  destruct (loop_aborted_last _ _ _ Hab) as (Hre & Hlast).
  split_and!; [done| |done].
  unfold onEnter. destruct (loop fuel (init_state g)) as [[tr sf] e].
  cbn [snd] in Hab. by subst e.
Qed.

Lemma fail_fast_surfaces_first_failure_witness :
  (onEnter 5 Fixtures.rerun_fails).2 = Some (Rejected (new_Error "boom")).
Proof.
  apply (fail_fast_surfaces_first_failure 5 Fixtures.rerun_fails).
  vm_compute. reflexivity.
Defined.

(** X5.  Under [returnExceptions] the group can only complete with an
    error from the summarization: summarization is enabled, it failed on
    the chat context the tasks have left, and the error is the one built
    from its cause. *)
Theorem collecting_group_rejects_only_on_summarization fuel g err :
  _returnExceptions g = true →
  (onEnter fuel g).2 = Some (Rejected err) →
  _summarizeChatCtx g = true ∧
  ∃ cause, SummarizationFails (this (loop fuel (init_state g)).1.2) cause ∧
           err = new_Error ("failed to summarize the chat_ctx: " +:+ cause).
Proof.
  intros Hre. unfold onEnter.
  pose proof (loop_collect_never_aborts fuel (init_state g)) as Hnever.
  pose proof (loop_config fuel (init_state g)) as Hcfg.
  destruct (loop fuel (init_state g)) as [[tr sf] e]. cbn [fst snd] in *.
  destruct e; try done; [|by destruct (Hnever e Hre)].
  unfold config in Hcfg. cbn [init_state this] in Hcfg.
  injection Hcfg as Hs _ _ _ _.
  unfold finalize. rewrite Hs.
  destruct (_summarizeChatCtx g); [|done].
  destruct (session_llm (this sf)) as [summarize| |] eqn:Hl.
  - destruct (summarize (_chatCtx (this sf))) as [c|repr] eqn:Hsum; [done|].
    cbn [snd]. intros [= <-]. split; [done|].
    exists repr. split; [|done]. by eapply SummarizeThrows.
  - cbn [snd]. intros [= <-]. split; [done|].
    eexists. split; [|done]. apply NoStandardLlm. by rewrite Hl.
  - cbn [snd]. intros [= <-]. split; [done|].
    eexists. split; [|done]. apply NoStandardLlm. by rewrite Hl.
Qed.

Lemma collecting_group_rejects_only_on_summarization_witness :
  _summarizeChatCtx MoreFixtures.collecting_no_llm = true ∧
  ∃ cause,
    SummarizationFails
      (this (loop 3 (init_state MoreFixtures.collecting_no_llm)).1.2) cause ∧
    new_Error ("failed to summarize the chat_ctx: " +:+
               "Error: summarizeChatCtx requires a standard LLM on the session")
    = new_Error ("failed to summarize the chat_ctx: " +:+ cause).
Proof.
  apply (collecting_group_rejects_only_on_summarization 3).
  - reflexivity.
  - vm_compute. reflexivity.
Defined.

(** The chat context of the group after an iteration is what the
    conversation of its task has made of the copy the task was handed. *)
Lemma iteration_chatCtx taskId factoryInfo s :
  JsMap.get taskId (_registeredFactories (this s)) = Some factoryInfo →
  _chatCtx (this (step_state (iteration taskId s).2))
  = history (taskFactory factoryInfo (instances s)) (_chatCtx (this s)).
Proof.
  intros Hget. unfold iteration. rewrite Hget. unfold run.
  assert (∃ t, _currentTask (this (enter_task taskId factoryInfo s)) = Some t
               ∧ behaviour t = taskFactory factoryInfo (instances s)
               ∧ chat_ctx t = _chatCtx (this s)) as (t & -> & -> & ->).
  { unfold enter_task. destruct s as [[] ? ? ?]. cbn.
    destruct (buildOutOfScopeTool _ taskId); cbn; by eexists. }
  destruct (perform _ _) as [calls s1].
  set (c := history _ _). set (t' := complete _ <$> _).
  unfold leave_task.
  destruct (t' ≫= settled) as [[v|[targets|f]]|]; cbn; try done.
  - destruct (_taskCompletedCallback (this s1)) as [callback|]; [|done].
    destruct t' as [t1|]; [|done]. cbn.
    destruct (callback _ _); [|done]. cbn.
    by destruct (_returnExceptions (this s1)).
  - by destruct (_returnExceptions (this s1)).
Qed.

(** X6.  The group resolves exactly when the loop drained the queue and the
    summarization, if enabled, did not throw; it then resolves with the
    results of the loop.  The finalization replaces the chat context the
    loop has left by its summary when the summarization succeeded and
    leaves it as it is in every other case. *)
Theorem group_resolves_iff_drained_and_summarized fuel g :
  let sf := (loop fuel (init_state g)).1.2 in
  let e := (loop fuel (init_state g)).2 in
  (∀ results,
     (onEnter fuel g).2 = Some (Resolved results)
     ↔ e = Drained ∧ finalization_succeeds (this sf) ∧ results = taskResults sf)
  ∧ _chatCtx (this (onEnter fuel g).1.2)
    = match e, _summarizeChatCtx g, session_llm g with
      | Drained, true, StandardLLM summarize =>
          match summarize (_chatCtx (this sf)) with
          | inl summary => summary
          | inr _ => _chatCtx (this sf)
          end
      | _, _, _ => _chatCtx (this sf)
      end.
Proof.
  intros sf e. subst sf e. unfold onEnter, finalization_succeeds.
  pose proof (loop_config fuel (init_state g)) as Hcfg.
  destruct (loop fuel (init_state g)) as [[tr sf] e]. cbn [fst snd] in *.
  unfold config in Hcfg. cbn [init_state this] in Hcfg.
  injection Hcfg as Hs _ _ _ Hllm.
  split.
  - destruct e; cbn [fst snd];
      try (intros results; split; [done | by intros [? _]]).
    unfold finalize.
    destruct (_summarizeChatCtx (this sf)).
    + destruct (session_llm (this sf)) as [summarize| |] eqn:Hl; cbn [fst snd].
      * destruct (summarize (_chatCtx (this sf))) as [c|repr] eqn:Hsum; cbn [fst snd].
        -- intros results. split.
           ++ intros [= <-]. split_and!; try done. right. by exists summarize, c.
           ++ by intros (_ & _ & ->).
        -- intros results. split; [done|].
           intros (_ & [|(f & c & [= <-] & Hf)] & _); [done | congruence].
      * intros results. split; [done|].
        by intros (_ & [|(f & c & ? & _)] & _).
      * intros results. split; [done|].
        by intros (_ & [|(f & c & ? & _)] & _).
    + cbn [fst snd]. intros results. split.
      * intros [= <-]. split_and!; try done. by left.
      * by intros (_ & _ & ->).
  - destruct e; cbn [fst snd]; try by destruct (_summarizeChatCtx g), (session_llm g).
    unfold finalize. rewrite Hs, Hllm.
    destruct (_summarizeChatCtx g); [|done].
    destruct (session_llm g) as [summarize| |]; try done.
    destruct (summarize (_chatCtx (this sf))); [|done].
    by destruct sf as [[] ? ? ?].
Qed.

(** In the group of the summarization test the summarizer is given the
    answers of the user the two tasks collected. *)
Example summarized_history :
  _chatCtx (this (loop 2 (init_state MoreFixtures.summarized)).1.2)
  = ["user: Blue is my favorite color."; "user: I love pizza."]
  ∧ _chatCtx (this (onEnter 2 MoreFixtures.summarized).1.2) = ["[history summary]"].
Proof. vm_compute. by split. Qed.

(** ** The visited set after a run *)

(** X7.  At any point of a run the visited set holds what it held before
    the run and the ids of the tasks that were run; and once the loop has
    drained the queue, it holds what it held before and exactly the
    registered ids. *)
Theorem visited_is_the_tasks_that_ran fuel g k :
  (k ∈ _visitedTasks (this (loop fuel (init_state g)).1.2)
   ↔ k ∈ _visitedTasks g ∨ k ∈ it_taskId <$> (loop fuel (init_state g)).1.1)
  ∧ ((loop fuel (init_state g)).2 = Drained →
     (k ∈ _visitedTasks (this (loop fuel (init_state g)).1.2)
      ↔ k ∈ _visitedTasks g ∨ k ∈ JsMap.keys (_registeredFactories g))).
Proof.
  pose proof (loop_visited_exact fuel (init_state g) k) as Hv.
  split; [exact Hv|]. intros Hd. rewrite Hv. cbn [init_state this].
  pose proof (loop_records_registered fuel (init_state g)) as Hreg.
  destruct (loop fuel (init_state g)) as [[tr sf] e] eqn:Hl.
  cbn [fst snd] in *. subst e.
  split; (intros [?|Hk]; [by left|right]).
  - apply list_elem_of_fmap in Hk as (r & -> & Hr).
    rewrite Forall_forall in Hreg. by apply Hreg.
  - by eapply loop_drained_all_run.
Qed.

Lemma visited_is_the_tasks_that_ran_witness :
  "food" ∈ _visitedTasks (this (loop 2 (init_state MoreFixtures.summarized)).1.2).
Proof.
  apply (visited_is_the_tasks_that_ran 2 MoreFixtures.summarized "food").
  - vm_compute. reflexivity.
  - right. vm_compute. right. left.
Defined.

(** ** What the tool offers *)

(** The properties of [taskRepr]: one for each registered id of the enum,
    [__proto__] apart. *)
Lemma taskRepr_lookup (ids : list string) (reg : list (string * FactoryInfo))
    (m : gmap string string) k :
  let taskRepr :=
    foldl (λ taskRepr '(id, info),
             if JsSet.has id ids
             then JsObject.set id (description info) taskRepr else taskRepr)
      m reg in
  (∀ d, taskRepr !! k = Some d →
        m !! k = Some d
        ∨ ∃ info, (k, info) ∈ reg ∧ description info = d)
  ∧ (is_Some (taskRepr !! k)
     ↔ is_Some (m !! k) ∨ (k ∈ ids ∧ k ∈ reg.*1 ∧ k ≠ "__proto__")).
Proof.
  revert m. induction reg as [|[id info] reg IH]; intros m; cbn [foldl].
  { split; [by left|]. rewrite fmap_nil, elem_of_nil. tauto. }
  destruct (IH (if JsSet.has id ids
                then JsObject.set id (description info) m else m)) as [IH1 IH2].
  cbn zeta in *. split.
  - intros d Hd. destruct (IH1 d Hd) as [Hm|(info' & Hin & Hdesc)].
    + destruct (JsSet.has id ids); [|by left].
      destruct (decide (id = k)) as [->|Hne].
      * unfold JsObject.set in Hm. case_decide; [by left|].
        rewrite lookup_insert_eq in Hm. injection Hm as <-.
        right. exists info. split; [left | done].
      * rewrite JsObject_lookup_set_ne in Hm by done. by left.
    + right. exists info'. split; [by right | done].
  - rewrite IH2, fmap_cons, elem_of_cons. cbn [fst].
    destruct (JsSet.has id ids) eqn:Hhas.
    + apply JsSet_has_true in Hhas.
      destruct (decide (id = k)) as [->|Hne].
      * unfold JsObject.set. case_decide as Hp; [subst; tauto|].
        rewrite lookup_insert_eq. split; [|by left]. intros _. right. tauto.
      * rewrite JsObject_lookup_set_ne by done.
        split; (intros [?|(Hk & Hin & Hp)]; [by left|right]); [tauto|].
        split_and!; try done. by destruct Hin as [->|?].
    + assert (k ∈ ids → id ≠ k) as Hne.
      { intros Hk ->. apply JsSet_has_true in Hk. congruence. }
      split; (intros [?|(Hk & Hin & Hp)]; [by left|right]); [tauto|].
      split_and!; try done. destruct Hin as [->|?]; [|done]. by destruct Hne.
Qed.

(** [buildOutOfScopeTool] gives no tool exactly when no id other than the
    active one has been visited; the enum of the tool is the visited ids
    without the active one. *)
Lemma buildOutOfScopeTool_enum g activeTaskId :
  match buildOutOfScopeTool g activeTaskId with
  | None => ∀ k, k ∈ _visitedTasks g → k = activeTaskId
  | Some tool =>
      (∃ k, k ∈ _visitedTasks g ∧ k ≠ activeTaskId)
      ∧ taskIdValues tool = filter (λ k, k ≠ activeTaskId) (_visitedTasks g)
  end.
Proof.
  unfold buildOutOfScopeTool, JsSet.size, JsSet.copy, JsSet.delete.
  destruct (decide (length (_visitedTasks g) = 0)) as [Hz|Hz].
  { apply nil_length_inv in Hz. rewrite Hz. by intros k ?%elem_of_nil. }
  destruct (decide (length (filter (λ y, y ≠ activeTaskId) (_visitedTasks g)) = 0))
    as [Hf|Hf].
  { apply nil_length_inv in Hf. intros k Hk.
    destruct (decide (k = activeTaskId)) as [|Hne]; [done|].
    assert (k ∈ filter (λ y, y ≠ activeTaskId) (_visitedTasks g)) as Hin
      by by apply list_elem_of_filter.
    rewrite Hf in Hin. by apply elem_of_nil in Hin. }
  cbn [taskIdValues]. split; [|done].
  destruct (filter (λ y, y ≠ activeTaskId) (_visitedTasks g)) as [|k l] eqn:E;
    [done|].
  assert (k ∈ filter (λ y, y ≠ activeTaskId) (_visitedTasks g)) as Hin
    by (rewrite E; left).
  apply list_elem_of_filter in Hin as [? ?]. by exists k.
Qed.

(** X8.  [buildOutOfScopeTool] gives no tool exactly when no id other than
    the active one has been visited.  Otherwise the enum of its parameter
    is the visited ids without the active one, in the order they were first
    visited; the object it describes the tasks with has a property for
    each registered id of the enum other than [__proto__] and no other
    property, and each is a description the id is registered with. *)
Theorem buildOutOfScopeTool_offers_other_visited_tasks g activeTaskId :
  match buildOutOfScopeTool g activeTaskId with
  | None => ∀ k, k ∈ _visitedTasks g → k = activeTaskId
  | Some tool =>
      (∃ k, k ∈ _visitedTasks g ∧ k ≠ activeTaskId)
      ∧ taskIdValues tool = filter (λ k, k ≠ activeTaskId) (_visitedTasks g)
      ∧ (∀ k, is_Some (taskRepr tool !! k)
              ↔ k ∈ taskIdValues tool
                ∧ k ∈ JsMap.keys (_registeredFactories g)
                ∧ k ≠ "__proto__")
      ∧ ∀ k d, taskRepr tool !! k = Some d →
               ∃ info, (k, info) ∈ _registeredFactories g ∧ description info = d
  end.
Proof.
  pose proof (buildOutOfScopeTool_enum g activeTaskId) as Henum.
  destruct (buildOutOfScopeTool g activeTaskId) as [tool|] eqn:Hb; [|done].
  destruct Henum as [Hex Hids]. split_and!; [done..| |];
    unfold buildOutOfScopeTool in Hb; repeat case_decide; simplify_eq;
    cbn [taskRepr taskIdValues].
  - intros k.
    destruct (taskRepr_lookup
                (JsSet.delete activeTaskId (JsSet.copy (_visitedTasks g)))
                (_registeredFactories g) JsObject.empty k) as [_ ->].
    unfold JsObject.empty. rewrite lookup_empty. unfold JsMap.keys.
    split; [intros [[? ?]|?]; [done|tauto] | tauto].
  - intros k d Hd.
    destruct (taskRepr_lookup
                (JsSet.delete activeTaskId (JsSet.copy (_visitedTasks g)))
                (_registeredFactories g) JsObject.empty k) as [Hval _].
    destruct (Hval d Hd) as [Hm|?]; [|done].
    unfold JsObject.empty in Hm. by rewrite lookup_empty in Hm.
Qed.

(** ** When a regression can happen *)

Lemma perform_without_tool evs s :
  (∀ t, _currentTask (this s) = Some t →
        out_of_scope t = None
        ∧ ∀ targets, settled t ≠ Some (Rejects (OutOfScopeError targets))) →
  (perform evs s).1 = [] ∧
  (∀ t, _currentTask (this (perform evs s).2) = Some t →
        out_of_scope t = None
        ∧ ∀ targets, settled t ≠ Some (Rejects (OutOfScopeError targets))).
Proof.
  revert s. induction evs as [|[task_ids|r] evs IH]; intros s Hs; [done| |].
  - cbn [perform].
    assert (_currentTask (this s) ≫= out_of_scope = None) as ->.
    { destruct (_currentTask (this s)) as [t|] eqn:Ht; [|done].
      destruct (Hs t eq_refl) as [Hno _]. exact Hno. }
    by apply IH.
  - cbn [perform]. apply IH. intros t Ht. destruct s as [[] ? ? ?].
    cbn in Ht. destruct _currentTask0 as [t0|]; [|done]. cbn in Ht.
    injection Ht as <-. destruct (Hs t0 eq_refl) as [Hno Hset].
    unfold complete, done. destruct (settled t0) eqn:E; cbn.
    + split; [done|]. intros targets. rewrite ?E. apply Hset.
    + split; [done|]. intros targets. by destruct r.
Qed.

(** A task run while no other id is visited gets no tool: its actor's calls
    are not answered and it is not interrupted. *)
Lemma iteration_lone_task taskId s rec :
  (∀ k, k ∈ _visitedTasks (this s) → k = taskId) →
  (iteration taskId s).1 = Some rec →
  it_toolCalls rec = [] ∧ is_regression rec = false.
Proof.
  intros Hlone. unfold iteration.
  destruct (JsMap.get taskId _) as [factoryInfo|]; [|done].
  set (s0 := enter_task taskId factoryInfo s).
  assert (∀ t, _currentTask (this s0) = Some t →
               out_of_scope t = None
               ∧ ∀ targets, settled t ≠ Some (Rejects (OutOfScopeError targets)))
    as Hs0.
  { subst s0. unfold enter_task.
    pose proof (buildOutOfScopeTool_enum
                  (this (next_instance
                     (set_currentTask
                        (Some (new_task (taskFactory factoryInfo (instances s)))) s)))
                  taskId) as Hb.
    destruct (buildOutOfScopeTool _ taskId) as [tool|].
    - destruct Hb as [(k & Hk & Hne) _]. destruct s as [[] ? ? ?].
      cbn in Hk. by specialize (Hlone k Hk).
    - destruct s as [[] ? ? ?]. cbn. by intros t [= <-]. }
  clearbody s0. unfold run.
  pose proof (λ evs, perform_without_tool evs s0 Hs0) as Hp0.
  destruct (_currentTask (this s0)) as [t|] eqn:Ht; [|done].
  destruct (Hp0 (events (behaviour t))) as [Hcalls Hp].
  destruct (perform (events (behaviour t)) s0) as [calls s1]. cbn [fst snd] in *.
  subst calls. unfold leave_task.
  destruct (_currentTask (this s1)) as [t1|] eqn:Ht1; cbn [fmap option_fmap option_map mbind option_bind]; [|done].
  destruct (Hp t1 eq_refl) as [_ Hset].
  unfold complete, done. destruct (settled t1) as [[v|e]|] eqn:E; cbn [settled].
  - rewrite E. destruct s1 as [[] ? ? ?]. cbn.
    destruct _taskCompletedCallback0 as [callback|]; [destruct (callback _ _)|];
      cbn; by intros [= <-].
  - rewrite E. cbn. intros [= <-]. cbn. split; [done|].
    unfold is_regression. cbn. destruct e as [targets|f]; [|done].
    by destruct (Hset targets).
  - destruct (finally (behaviour t)) as [v|err]; cbn.
    + destruct s1 as [[] ? ? ?]. cbn.
      destruct _taskCompletedCallback0 as [callback|]; [destruct (callback _ _)|];
        cbn; by intros [= <-].
    + by intros [= <-].
Qed.

(** The state before the iteration of a record, with its visited set. *)
Lemma loop_from_record_visited fuel s pre rec post sf e :
  loop fuel s = (pre ++ rec :: post, sf, e) →
  ∃ fuel' s1 rest,
    config s1 = config s ∧
    taskStack s1 = it_taskId rec :: rest ∧
    iteration (it_taskId rec) (set_taskStack rest s1)
      = (Some rec, (iteration (it_taskId rec) (set_taskStack rest s1)).2) ∧
    (∀ k, k ∈ _visitedTasks (this s1)
          ↔ k ∈ _visitedTasks (this s) ∨ k ∈ it_taskId <$> pre) ∧
    loop (S fuel') s1 = (rec :: post, sf, e).
Proof.
  intros Hl.
  destruct (loop_split
              (λ done_ s1, ∀ k, k ∈ _visitedTasks (this s1)
                 ↔ k ∈ _visitedTasks (this s) ∨ k ∈ it_taskId <$> done_)
              (λ _, True) fuel s [] pre rec post sf e)
    as (fuel' & s1 & rest & Hv & Hcfg & _ & Hq & Hit & Hl1); try done.
  - intros done_ s0 taskId rest r s' Hv0 _ Hq Hit k.
    pose proof (iteration_of_loop _ _ _ _ _ Hq Hit) as (Hid & _ & _ & _ & Hv & _).
    cbn [step_state] in Hv.
    rewrite Hv, JsSet_elem_of_add, Hv0, fmap_app, elem_of_app.
    rewrite list_fmap_singleton, list_elem_of_singleton, Hid. tauto.
  - by apply Forall_true.
  - intros k. rewrite fmap_nil, elem_of_nil. tauto.
  - exists fuel', s1, rest. split_and!; try done.
    destruct (iteration _ _) as [r step]. cbn in Hit. by subst r.
Qed.

(** C7.  The iteration of a registered id is: enter the task, run it,
    leave it.  Entering the task adds the id to the visited set, so the id
    is visited in the state in which [run()] is called, the set is the
    same through all the events of the run, and after the iteration it is
    the set of before with the id added.  The tool the task has was built
    before the id was added, from the visited set without the id, and its
    enum never holds the id.  Every record of a run of the loop comes from
    such an iteration, in a state whose visited set holds what was visited
    before the run and the tasks that ran earlier in it; and the run leaves
    visited exactly the ids that were visited before it and the tasks it
    ran.  Neither a call
    of the tool or of its [execute], nor the run of a task, nor an
    iteration, nor the whole loop, nor [onEnter] removes an id from the
    visited set. *)
Theorem visited_before_run_and_never_removed :
  (∀ taskId factoryInfo s,
     taskId ∈ _visitedTasks (this (enter_task taskId factoryInfo s)))
  ∧ (∀ g taskId,
       (taskId ∉ JsSet.delete taskId (JsSet.copy (_visitedTasks g)))
       ∧ (taskId ∉ from_option taskIdValues [] (buildOutOfScopeTool g taskId)))
  ∧ (∀ task_ids s,
       _visitedTasks (this (invoke_out_of_scope task_ids s).2) = _visitedTasks (this s))
  ∧ (∀ s, _visitedTasks (this (run s).1.2) = _visitedTasks (this s))
  ∧ (∀ taskId s,
       _visitedTasks (this s) ⊆ _visitedTasks (this (step_state (iteration taskId s).2)))
  ∧ (∀ fuel s, _visitedTasks (this s) ⊆ _visitedTasks (this (loop fuel s).1.2))
  ∧ (∀ fuel g, _visitedTasks g ⊆ _visitedTasks (this (onEnter fuel g).1.2))
  ∧ (∀ tool task_ids s,
       _visitedTasks (this (call_out_of_scope tool task_ids s).2)
       = _visitedTasks (this s))
  ∧ (∀ taskId factoryInfo s,
       JsMap.get taskId (_registeredFactories (this s)) = Some factoryInfo →
       iteration taskId s
       = leave_task taskId (instances s) (run (enter_task taskId factoryInfo s))
       ∧ _visitedTasks (this (enter_task taskId factoryInfo s))
         = JsSet.add taskId (_visitedTasks (this s))
       ∧ (∀ evs,
            _visitedTasks (this (perform evs (enter_task taskId factoryInfo s)).2)
            = JsSet.add taskId (_visitedTasks (this s)))
       ∧ _visitedTasks (this (step_state (iteration taskId s).2))
         = JsSet.add taskId (_visitedTasks (this s))
       ∧ _currentTask (this (enter_task taskId factoryInfo s)) ≫= out_of_scope
         = buildOutOfScopeTool (this s) taskId)
  ∧ (∀ fuel s k,
       k ∈ _visitedTasks (this (loop fuel s).1.2)
       ↔ k ∈ _visitedTasks (this s) ∨ k ∈ it_taskId <$> (loop fuel s).1.1)
  ∧ (∀ fuel s pre rec post,
       (loop fuel s).1.1 = pre ++ rec :: post →
       ∃ s1 factoryInfo,
         JsMap.get (it_taskId rec) (_registeredFactories (this s1)) = Some factoryInfo
         ∧ (∀ k, k ∈ _visitedTasks (this s1)
                 ↔ k ∈ _visitedTasks (this s) ∨ k ∈ it_taskId <$> pre)
         ∧ (leave_task (it_taskId rec) (instances s1)
              (run (enter_task (it_taskId rec) factoryInfo s1))).1 = Some rec
         ∧ it_taskId rec
           ∈ _visitedTasks (this (enter_task (it_taskId rec) factoryInfo s1))).
Proof.
  split_and!.
  - intros. rewrite enter_task_visited. apply JsSet_elem_of_add. by left.
  - intros g taskId.
    assert (taskId ∉ JsSet.delete taskId (JsSet.copy (_visitedTasks g))) as Hd
      by (rewrite JsSet_elem_of_delete; tauto).
    split; [done|]. apply buildOutOfScopeTool_excludes_active.
  - apply invoke_out_of_scope_visited.
  - apply run_visited.
  - apply iteration_visited.
  - apply loop_visited.
  - intros fuel g. unfold onEnter.
    pose proof (loop_visited fuel (init_state g)) as Hv.
    destruct (loop fuel (init_state g)) as [[tr sf] e]. simpl in Hv.
    destruct e; try done.
    pose proof (finalize_visited sf) as Hf.
    destruct (finalize sf) as [s' o]. simpl in *. by rewrite Hf.
  - apply call_out_of_scope_visited.
  - intros taskId factoryInfo s Hget. split_and!.
    + unfold iteration. by rewrite Hget.
    + apply enter_task_visited.
    + intros evs. rewrite perform_visited. apply enter_task_visited.
    + destruct (iteration taskId s) as [[rec|] step] eqn:Hit.
      * by apply iteration_effect in Hit as (_ & _ & _ & _ & _ & Hv & _).
      * apply iteration_no_record in Hit as [Hnone _]. congruence.
    + apply enter_task_tool.
  - apply loop_visited_exact.
  - intros fuel s pre rec post Htr.
    destruct (loop fuel s) as [[tr sf] e] eqn:Hl. cbn [fst] in Htr. subst tr.
    destruct (loop_from_record_visited _ _ _ _ _ _ _ Hl)
      as (fuel' & s1 & rest & _ & _ & Hit & Hv & _).
    destruct (JsMap.get (it_taskId rec)
                (_registeredFactories (this (set_taskStack rest s1))))
      as [factoryInfo|] eqn:Hget.
    2:{ unfold iteration in Hit. by rewrite Hget in Hit. }
    exists (set_taskStack rest s1), factoryInfo. split_and!; [done..| |].
    + unfold iteration in Hit. rewrite Hget in Hit. by rewrite Hit.
    + rewrite enter_task_visited. apply JsSet_elem_of_add. by left.
Qed.

(** X9.  In a run, a task whose actor's call of the tool was answered, or
    that was interrupted by a regression, ran after some other task was
    visited: the first task of a run of a new group gets no tool.  And the
    targets of a regression are registered ids that were visited before the
    run or ran earlier in it, or the interrupted task itself. *)
Theorem regression_goes_back_to_tasks_that_ran fuel g pre rec post :
  (loop fuel (init_state g)).1.1 = pre ++ rec :: post →
  ((it_toolCalls rec ≠ [] ∨ is_regression rec = true) →
   ∃ k, k ≠ it_taskId rec ∧ (k ∈ _visitedTasks g ∨ k ∈ it_taskId <$> pre))
  ∧ ∀ targets,
      it_run rec = Rejects (OutOfScopeError targets) →
      Forall (λ k, k ∈ JsMap.keys (_registeredFactories g)
                   ∧ (k ∈ _visitedTasks g ∨ k ∈ it_taskId <$> pre
                      ∨ k = it_taskId rec)) targets.
Proof.
  destruct (loop fuel (init_state g)) as [[tr sf] e] eqn:Hl. cbn [fst]. intros ->.
  destruct (loop_from_record_visited _ _ _ _ _ _ _ Hl)
    as (fuel' & s1 & rest & Hcfg & Hq & Hit & Hv & _).
  apply config_registeredFactories in Hcfg. cbn [init_state this] in Hcfg, Hv.
  split.
  - intros Hsig.
    destruct (decide (Exists (λ k, k ≠ it_taskId rec) (_visitedTasks (this s1))))
      as [Hex|Hall].
    + apply Exists_exists in Hex as (k & Hk & Hne). exists k. split; [done|].
      by apply Hv.
    + exfalso. rewrite <- Forall_Exists_neg, Forall_forall in Hall.
      destruct (iteration_lone_task (it_taskId rec) (set_taskStack rest s1) rec)
        as [Hcalls Hreg].
      * intros k Hk. specialize (Hall k Hk). by apply dec_stable.
      * by rewrite Hit.
      * destruct Hsig as [?|?]; congruence.
  - intros targets Hrun.
    pose proof (iteration_regression_targets _ _ _ _ _ Hit Hrun) as Ht.
    eapply Forall_impl; [exact Ht|]. cbn [set_taskStack this].
    intros k [Hk1 Hk2]. rewrite Hcfg in Hk1. split; [done|].
    apply JsSet_elem_of_add in Hk2 as [->|Hk2]; [tauto|].
    apply Hv in Hk2. tauto.
Qed.

Lemma regression_goes_back_to_tasks_that_ran_witness :
  Forall (λ k, k ∈ JsMap.keys (_registeredFactories MoreFixtures.regress_to_two)
               ∧ (k ∈ _visitedTasks MoreFixtures.regress_to_two
                  ∨ k ∈ it_taskId <$> [mkRecord "a" [] (Resolves (JNum 1)) None;
                                       mkRecord "b" [] (Resolves (JNum 2)) None]
                  ∨ k = "c")) ["b"; "a"].
Proof.
  eapply (regression_goes_back_to_tasks_that_ran 3 MoreFixtures.regress_to_two
            [mkRecord "a" [] (Resolves (JNum 1)) None;
             mkRecord "b" [] (Resolves (JNum 2)) None]
            (mkRecord "c" [ToolReturns] (Rejects (OutOfScopeError ["b"; "a"])) None)
            []).
  - vm_compute. reflexivity.
  - reflexivity.
Defined.

(** When the loop drains the queue and no task regresses, the tasks run are
    the queued ones, in order. *)
Lemma loop_drained_straight fuel s :
  (loop fuel s).2 = Drained →
  Forall (λ r, is_regression r = false) (loop fuel s).1.1 →
  it_taskId <$> (loop fuel s).1.1 = taskStack s.
Proof.
  revert s. induction fuel as [|fuel IH]; intros s;
    destruct (loop _ s) as [[tr sf] e] eqn:Hl;
    destruct (loop_case _ _ _ _ _ Hl)
      as [Hq| |fuel' taskId rest Hf Hq Hget
            |fuel' taskId rest r s' err' Hf Hq Hit Hab
            |fuel' taskId rest r s' tr' Hf Hq Hit Hab Htr Hl'];
    clear Hl; simplify_eq; cbn [fst snd]; try done; try (by rewrite Hq).
  intros -> [Hr Hno]%Forall_cons.
  pose proof (iteration_of_loop _ _ _ _ _ Hq Hit) as (Hid & Hq' & _).
  cbn [step_state] in Hq'. rewrite stack_after_no_regression in Hq' by done.
  specialize (IH s'). rewrite Hl' in IH. cbn [fst snd] in IH.
  rewrite fmap_cons, IH, Hq', Hid, Hq; done.
Qed.

(** The queue of the state the loop has reached is the one the records
    left so far give. *)
Lemma loop_from_record_stack fuel s pre rec post sf e :
  loop fuel s = (pre ++ rec :: post, sf, e) →
  ∃ fuel' s1,
    taskStack s1 = stack_after_trace pre (taskStack s) ∧
    head (taskStack s1) = Some (it_taskId rec) ∧
    (iteration (it_taskId rec) (set_taskStack (tail (taskStack s1)) s1)).1 = Some rec ∧
    loop (S fuel') s1 = (rec :: post, sf, e).
Proof.
  intros Hl.
  destruct (loop_split
              (λ done_ s1, taskStack s1 = stack_after_trace done_ (taskStack s))
              (λ _, True) fuel s [] pre rec post sf e)
    as (fuel' & s1 & rest & Hstack & _ & _ & Hq & Hit & Hl1); try done.
  - intros done_ s0 taskId rest0 r s' Hs0 _ Hq0 Hit0.
    pose proof (iteration_of_loop _ _ _ _ _ Hq0 Hit0) as (_ & Hq' & _).
    cbn [step_state] in Hq'. unfold stack_after_trace. rewrite foldl_app.
    cbn [foldl]. fold (stack_after_trace done_ (taskStack s)).
    by rewrite <- Hs0, Hq0, Hq'.
  - by apply Forall_true.
  - exists fuel', s1. cbn [app] in Hstack. rewrite Hq. split_and!; try done.
    by rewrite <- Hq.
Qed.

(** X10.  The queue at any point of a run is the one its records give:
    each iteration shifts the first id off, and a regression puts the
    targets and the interrupted task in front.  After a regression, if the
    loop then drains the queue without another regression, the tasks that
    run next are the targets in the order given, then the interrupted task,
    then the tasks that were queued behind it when it was interrupted, and
    nothing else; when no regression came before either, these last are the
    registered ids after the interrupted one. *)
Theorem after_regression_targets_then_task_then_rest fuel g pre rec post targets :
  (loop fuel (init_state g)).1.1 = pre ++ rec :: post →
  it_run rec = Rejects (OutOfScopeError targets) →
  (loop fuel (init_state g)).2 = Drained →
  Forall (λ r, is_regression r = false) post →
  let queue := stack_after_trace pre (JsMap.keys (_registeredFactories g)) in
  (∃ fuel' s1,
     taskStack s1 = queue ∧
     loop (S fuel') s1
     = (rec :: post, (loop fuel (init_state g)).1.2, Drained))
  ∧ head queue = Some (it_taskId rec)
  ∧ it_taskId <$> post = targets ++ [it_taskId rec] ++ tail queue
  ∧ (Forall (λ r, is_regression r = false) pre →
     queue = drop (length pre) (JsMap.keys (_registeredFactories g))).
Proof.
  destruct (loop fuel (init_state g)) as [[tr sf] e] eqn:Hl. cbn [fst snd].
  intros -> Hrun -> Hpost.
  set (queue := stack_after_trace pre (JsMap.keys (_registeredFactories g))).
  destruct (loop_from_record_stack _ _ _ _ _ _ _ Hl)
    as (fuel' & s1 & Hq & Hhead & Hit & Hl1).
  change (taskStack (init_state g)) with (JsMap.keys (_registeredFactories g)) in Hq.
  fold queue in Hq. rewrite Hq in Hhead, Hit.
  split_and!; [by exists fuel', s1 | done | |].
  - destruct queue as [|taskId rest] eqn:Hqueue; [done|].
    injection Hhead as ->. cbn [tail] in *.
    pose proof (loop_at_record _ _ _ _ _ _ _ _ Hq Hit Hl1) as [_ Hat].
    destruct (abort_of _ rec); [by destruct Hat as (_ & ? & _)|].
    destruct Hat as (s' & _ & Hq' & _ & _ & _ & Hl').
    unfold stack_after in Hq'. rewrite Hrun in Hq'.
    pose proof (loop_drained_straight fuel' s') as Hids.
    rewrite Hl' in Hids. cbn [fst snd] in Hids.
    by rewrite Hids, Hq'.
  - clear. subst queue. generalize (JsMap.keys (_registeredFactories g)).
    induction pre as [|r pre IH] using rev_ind; intros keys Hno; [done|].
    apply Forall_app in Hno as [Hno [Hr _]%Forall_cons].
    unfold stack_after_trace. rewrite foldl_app. cbn [foldl].
    fold (stack_after_trace pre keys).
    rewrite stack_after_no_regression, IH by done.
    rewrite length_app. cbn [length].
    rewrite <- drop_drop. by destruct (drop (length pre) keys).
Qed.

Lemma after_regression_targets_then_task_then_rest_witness :
  it_taskId <$> [mkRecord "b" [] (Resolves (JNum 2)) None;
                 mkRecord "a" [] (Resolves (JNum 1)) None;
                 mkRecord "c" [] (Resolves (JNum 3)) None;
                 mkRecord "d" [] (Resolves (JNum 4)) None]
  = ["b"; "a"] ++ ["c"]
    ++ tail (stack_after_trace
               [mkRecord "a" [] (Resolves (JNum 1)) None;
                mkRecord "b" [] (Resolves (JNum 2)) None]
               (JsMap.keys (_registeredFactories MoreFixtures.regress_to_two))).
Proof.
  apply (after_regression_targets_then_task_then_rest 7
           MoreFixtures.regress_to_two
           [mkRecord "a" [] (Resolves (JNum 1)) None;
            mkRecord "b" [] (Resolves (JNum 2)) None]
           (mkRecord "c" [ToolReturns] (Rejects (OutOfScopeError ["b"; "a"])) None)).
  - vm_compute. reflexivity.
  - reflexivity.
  - vm_compute. reflexivity.
  - by repeat constructor.
Defined.

(** ** A run that never ends *)

Lemma enter_task_current taskId factoryInfo s :
  ∃ t, _currentTask (this (enter_task taskId factoryInfo s)) = Some t
       ∧ behaviour t = taskFactory factoryInfo (instances s)
       ∧ settled t = None
       ∧ out_of_scope t = buildOutOfScopeTool (this s) taskId.
Proof.
  unfold enter_task. cbn [next_instance set_currentTask this].
  change (buildOutOfScopeTool (mkTaskGroup _ _ _ _ _ _ _ _) taskId)
    with (buildOutOfScopeTool (this s) taskId).
  destruct (buildOutOfScopeTool (this s) taskId); cbn; by eexists.
Qed.

Lemma enter_task_registry taskId factoryInfo s :
  _registeredFactories (this (enter_task taskId factoryInfo s))
  = _registeredFactories (this s).
Proof. unfold enter_task. cbn. by destruct (buildOutOfScopeTool _ taskId). Qed.

(** The record of an iteration holds how the run of its task settled. *)
Lemma iteration_run taskId factoryInfo s rec step :
  JsMap.get taskId (_registeredFactories (this s)) = Some factoryInfo →
  iteration taskId s = (Some rec, step) →
  (run (enter_task taskId factoryInfo s)).2 = Some (it_run rec).
Proof.
  intros Hget. unfold iteration. rewrite Hget.
  destruct (run _) as [[calls s1] r]. unfold leave_task. cbn [snd].
  destruct r as [[v|e]|]; [| |done].
  - destruct (_taskCompletedCallback _) as [callback|]; cbn;
      [destruct (_currentTask _); [destruct (callback _ _)|]|];
      by intros [= <- _].
  - by intros [= <- _].
Qed.

(** A task without events settles as it completes itself. *)
Lemma run_no_events s t :
  _currentTask (this s) = Some t → events (behaviour t) = [] → settled t = None →
  (run s).2 = Some (completion_result (finally (behaviour t))).
Proof.
  intros Ht Hev Hset. unfold run. rewrite Ht, Hev. cbn. rewrite Ht. cbn.
  unfold complete, done. by rewrite Hset.
Qed.

(** A task whose actor calls the tool once, with ids of the enum that are
    registered and visited, is interrupted with these ids. *)
Lemma run_regression s t tool task_ids :
  _currentTask (this s) = Some t →
  events (behaviour t) = [InvokeOutOfScope task_ids] →
  settled t = None → out_of_scope t = Some tool →
  Forall (λ k, k ∈ taskIdValues tool) task_ids →
  Forall (λ k, k ∈ JsMap.keys (_registeredFactories (this s))
               ∧ k ∈ _visitedTasks (this s)) task_ids →
  (run s).2 = Some (Rejects (OutOfScopeError task_ids)).
Proof.
  intros Ht Hev Hset Htool Henum Hvalid. unfold run. rewrite Ht, Hev.
  cbn [perform]. rewrite Ht. cbn [mbind option_bind]. rewrite Htool.
  unfold call_out_of_scope.
  assert (find (λ tid, bool_decide (tid ∉ taskIdValues tool)) task_ids = None) as ->.
  { apply find_none. eapply Forall_impl; [exact Henum|].
    intros k Hk. by apply bool_decide_eq_false_2; intros ?. }
  unfold invoke_out_of_scope, execute.
  assert (find (invalid_task_id (_registeredFactories (this s))
                  (_visitedTasks (this s))) task_ids = None) as ->.
  { apply find_none. eapply Forall_impl; [exact Hvalid|].
    intros k. by rewrite invalid_task_id_false. }
  rewrite Ht. unfold done at 1. rewrite Hset. cbn.
  unfold complete, done. rewrite Hset. cbn. done.
Qed.

(** In the group [regression_loop] the loop goes round for ever: [a] fails
    and is collected, [b] regresses to [a], and so on; [c] never runs and
    no number of iterations drains the queue. *)
Lemma regression_loop_never_reaches_c fuel s :
  config s = config (init_state Fixtures.regression_loop) →
  taskStack s = ["a"; "b"; "c"]
  ∨ (taskStack s = ["b"; "c"] ∧ "a" ∈ _visitedTasks (this s)) →
  Forall (λ r, it_taskId r ≠ "c") (loop fuel s).1.1 ∧ (loop fuel s).2 = OutOfFuel.
Proof.
  revert s. induction fuel as [|fuel IH]; intros s Hcfg Hq.
  { cbn [loop]. by destruct Hq as [->|[-> _]]. }
  assert (_registeredFactories (this s)
          = _registeredFactories Fixtures.regression_loop
          ∧ _returnExceptions (this s) = true) as [Hreg Hre]
    by (unfold config in Hcfg; by simplify_eq).
  destruct Hq as [Hq|[Hq Ha]]; rewrite (loop_S _ _ _ _ Hq).
  - destruct (iteration "a" (set_taskStack ["b"; "c"] s)) as [[r|] step] eqn:Hit.
    2:{ apply iteration_no_record in Hit as [Hnone _].
        cbn [set_taskStack this] in Hnone. rewrite Hreg in Hnone. done. }
    pose proof (iteration_effect _ _ _ _ Hit)
      as (Hid & Hq' & _ & Hstep & Hcfg' & Hv & _).
    assert (it_run r = Rejects (Foreign (FailError (new_Error "boom")))) as Hrun.
    { eapply (iteration_run "a" (mkFactoryInfo (Fixtures.fails "boom") "a" "A"))
        in Hit; [|cbn [set_taskStack this]; by rewrite Hreg].
      destruct (enter_task_current "a"
                  (mkFactoryInfo (Fixtures.fails "boom") "a" "A")
                  (set_taskStack ["b"; "c"] s)) as (t & Ht & Hb & Hset & _).
      rewrite (run_no_events _ t Ht) in Hit; [|by rewrite Hb|done].
      rewrite Hb in Hit. by injection Hit as <-. }
    cbn [set_taskStack this taskStack] in Hq', Hstep, Hv.
    unfold abort_of, failure_of in Hstep. unfold stack_after in Hq'.
    rewrite Hrun in Hstep, Hq'. rewrite Hre in Hstep. rewrite Hstep. cbv beta iota.
    destruct (IH (step_state step)) as [Hall Hend].
    { by rewrite Hcfg'. }
    { right. split; [done|]. rewrite Hv. apply JsSet_elem_of_add. by left. }
    destruct (loop fuel (step_state step)) as [[tr sf] e]. cbn [fst snd] in *.
    split; [|done]. constructor; [by rewrite Hid | done].
  - destruct (iteration "b" (set_taskStack ["c"] s)) as [[r|] step] eqn:Hit.
    2:{ apply iteration_no_record in Hit as [Hnone _].
        cbn [set_taskStack this] in Hnone. rewrite Hreg in Hnone. done. }
    pose proof (iteration_effect _ _ _ _ Hit)
      as (Hid & Hq' & _ & Hstep & Hcfg' & Hv & _).
    assert (it_run r = Rejects (OutOfScopeError ["a"])) as Hrun.
    { eapply (iteration_run "b"
                (mkFactoryInfo (Fixtures.always_regresses ["a"] (JNum 2)) "b" "B"))
        in Hit; [|cbn [set_taskStack this]; by rewrite Hreg].
      destruct (enter_task_current "b"
                  (mkFactoryInfo (Fixtures.always_regresses ["a"] (JNum 2)) "b" "B")
                  (set_taskStack ["c"] s)) as (t & Ht & Hb & Hset & Htool).
      pose proof (buildOutOfScopeTool_enum (this (set_taskStack ["c"] s)) "b") as Hen.
      destruct (buildOutOfScopeTool _ "b") as [tool|].
      2:{ by specialize (Hen "a" Ha). }
      destruct Hen as [_ Hen].
      rewrite (run_regression _ t tool ["a"] Ht) in Hit; try done.
      - by injection Hit as <-.
      - by rewrite Hb.
      - constructor; [|done]. rewrite Hen. by apply list_elem_of_filter.
      - constructor; [|done]. rewrite enter_task_visited, enter_task_registry.
        cbn [set_taskStack this]. rewrite Hreg. split.
        + cbn. left.
        + apply JsSet_elem_of_add. by right. }
    cbn [set_taskStack this taskStack] in Hq', Hstep, Hv.
    unfold abort_of, failure_of in Hstep. unfold stack_after in Hq'.
    rewrite Hrun in Hstep, Hq'. rewrite Hstep. cbv beta iota.
    destruct (IH (step_state step)) as [Hall Hend].
    { by rewrite Hcfg'. }
    { left. by rewrite Hq', Hid. }
    destruct (loop fuel (step_state step)) as [[tr sf] e]. cbn [fst snd] in *.
    split; [|done]. constructor; [by rewrite Hid | done].
Qed.

(** So [onEnter] never completes this group: whatever the number of
    iterations, [c] has not run and more iterations would follow. *)
Lemma regression_loop_starves fuel :
  Forall (λ r, it_taskId r ≠ "c")
    (loop fuel (init_state Fixtures.regression_loop)).1.1
  ∧ (loop fuel (init_state Fixtures.regression_loop)).2 = OutOfFuel
  ∧ (onEnter fuel Fixtures.regression_loop).2 = None.
Proof.
  destruct (regression_loop_never_reaches_c fuel
              (init_state Fixtures.regression_loop)) as [Hall Hend];
    [done | by left |].
  split_and!; [done..|]. unfold onEnter.
  destruct (loop fuel (init_state Fixtures.regression_loop)) as [[tr sf] e].
  cbn [snd] in Hend. by subst e.
Qed.

(** * The fake LLM *)

(** ** Strings *)

Lemma string_app_cons c s t : String c s +:+ t = String c (s +:+ t).
Proof. reflexivity. Qed.

Lemma string_app_nil_r s : s +:+ "" = s.
Proof. induction s as [|c s IH]; [done|]. by rewrite string_app_cons, IH. Qed.

Lemma string_app_assoc s t u : (s +:+ t) +:+ u = s +:+ (t +:+ u).
Proof. induction s as [|c s IH]; [done|]. by rewrite !string_app_cons, IH. Qed.

Lemma string_length_app s t :
  String.length (s +:+ t) = String.length s + String.length t.
Proof.
  induction s as [|c s IH]; [done|]. rewrite string_app_cons. cbn [String.length].
  by rewrite IH.
Qed.

Lemma substring_skip pre i n s :
  String.substring (String.length pre + i) n (pre +:+ s) = String.substring i n s.
Proof.
  induction pre as [|c pre IH]; [done|].
  rewrite string_app_cons. cbn [String.length plus String.substring]. exact IH.
Qed.

Lemma substring_skip_all pre n s :
  String.substring (String.length pre) n (pre +:+ s) = String.substring 0 n s.
Proof. rewrite <- (substring_skip pre 0 n s). by rewrite Nat.add_0_r. Qed.

(** ** The responses *)

(** X11.  [lookup] gives, for an input, the last of the responses the fake
    was built with that have this input, with [type], [ttft] and
    [duration] defaulted to ['llm'], [0] and [0] where the response leaves
    them out; for an input that no response has it gives nothing. *)
Theorem FakeLLM_lookup_is_last_response {Args}
    (responses : list (FakeLLM.FakeLLMResponse Args)) (input : string) :
  FakeLLM.lookup (FakeLLM.new_FakeLLM responses) input
  = FakeLLM.with_defaults
      <$> last (filter (λ response, FakeLLM.input response = input) responses).
Proof.
  unfold FakeLLM.lookup, FakeLLM.new_FakeLLM.
  induction responses as [|response responses IH] using rev_ind; [done|].
  rewrite foldl_app, filter_app. cbn [foldl].
  rewrite filter_cons, filter_nil.
  destruct (decide (FakeLLM.input response = input)) as [<-|Hne].
  - rewrite JsMap_get_set_eq. by rewrite last_snoc.
  - rewrite JsMap_get_set_ne by done. by rewrite app_nil_r.
Qed.

(** ** The content chunks *)

Lemma put_content_past fuel i content :
  String.length content ≤ i → FakeLLM.put_content fuel i content = [].
Proof.
  intros Hle. destruct fuel as [|fuel]; [done|]. cbn [FakeLLM.put_content].
  rewrite bool_decide_eq_false_2; [done | lia].
Qed.

(** The chunks of the part [s] of the content that is still to be put. *)
Lemma put_content_chunks fuel pre s :
  String.length s ≤ fuel →
  ∃ cs,
    FakeLLM.put_content fuel (String.length pre) (pre +:+ s)
    = (λ c, FakeLLM.mkChunk "fake" FakeLLM.assistant (Some c) None) <$> cs
    ∧ foldr String.append "" cs = s
    ∧ Forall (λ c, 1 ≤ String.length c ≤ 3) cs
    ∧ (∀ cs' c, cs = cs' ++ [c] → Forall (λ c', String.length c' = 3) cs')
    ∧ length cs = (String.length s + 2) / 3.
Proof.
  revert pre s. induction fuel as [|fuel IH]; intros pre s Hlen.
  { destruct s; [|cbn in Hlen; lia]. exists []. split_and!; try done.
    intros [|? ?] ? ?; discriminate. }
  cbn [FakeLLM.put_content]. rewrite string_length_app.
  destruct s as [|c1 s].
  { rewrite bool_decide_eq_false_2 by (cbn; lia). exists [].
    split_and!; try done. intros [|? ?] ? ?; discriminate. }
  rewrite bool_decide_eq_true_2 by (cbn; lia).
  rewrite substring_skip_all.
  destruct s as [|c2 [|c3 s]].
  - exists [String c1 ""]. split_and!; try done.
    + cbn [fmap list_fmap]. f_equal. apply put_content_past.
      rewrite string_length_app. cbn. lia.
    + by repeat constructor.
    + intros [|? [|? ?]] ? [=]. by subst.
  - exists [String c1 (String c2 "")]. split_and!; try done.
    + cbn [fmap list_fmap]. f_equal. apply put_content_past.
      rewrite string_length_app. cbn. lia.
    + by repeat constructor.
    + intros [|? [|? ?]] ? [=]. by subst.
  - destruct (IH (pre +:+ String c1 (String c2 (String c3 ""))) s)
      as (cs & Hput & Htext & Hsizes & Hfull & Hcount).
    { cbn in Hlen. lia. }
    exists (String c1 (String c2 (String c3 "")) :: cs). split_and!.
    + rewrite fmap_cons. f_equal; [by destruct s|].
      rewrite string_length_app, string_app_assoc in Hput.
      cbn [String.length] in Hput. exact Hput.
    + cbn [foldr]. by rewrite Htext.
    + constructor; [cbn; lia | done].
    + intros cs' c Heq. destruct cs' as [|c' cs'].
      * injection Heq as _ ->. done.
      * injection Heq as <- ->. constructor; [done|]. by eapply Hfull.
    + cbn [length String.length]. rewrite Hcount.
      replace (S (S (S (String.length s))) + 2)
        with (1 * 3 + (String.length s + 2)) by lia.
      by rewrite Nat.div_add_l.
Qed.

(** X12.  The content of a response is put on the queue in chunks of three
    code units: the chunks carry text only, put together they give back the
    content, each has one to three units and all but the last have three,
    and there are as many as the length divided by three, rounded up (none
    for empty content). *)
Theorem FakeLLM_content_chunks (content : string) :
  ∃ cs,
    FakeLLM.put_content (String.length content) 0 content
    = (λ c, FakeLLM.mkChunk "fake" FakeLLM.assistant (Some c) None) <$> cs
    ∧ foldr String.append "" cs = content
    ∧ FakeLLM.stream_text
        (FakeLLM.put_content (String.length content) 0 content) = content
    ∧ Forall (λ c, 1 ≤ String.length c ≤ 3) cs
    ∧ (∀ cs' c, cs = cs' ++ [c] → Forall (λ c', String.length c' = 3) cs')
    ∧ length cs = (String.length content + 2) / 3.
Proof.
  destruct (put_content_chunks (String.length content) "" content)
    as (cs & Hput & Htext & Hsizes & Hfull & Hcount); [done|].
  exists cs. split_and!; try done.
  change (FakeLLM.put_content (String.length content) 0 content)
    with (FakeLLM.put_content (String.length content) (String.length "")
            ("" +:+ content)).
  rewrite Hput, <- Htext. clear.
  induction cs as [|c cs IH]; [done|].
  rewrite fmap_cons. unfold FakeLLM.stream_text in *. cbn [foldr].
  by rewrite IH.
Qed.

(** ** The tool calls *)

(** X13.  The calls of a response become function calls one for one, in
    order, with the name and the stringified arguments of each; the call of
    index [i] has the id [fake_call_i], so the ids of one response are all
    different. *)
Theorem FakeLLM_calls_have_distinct_ids {Args} (stringify : Args → string)
    (toolCalls : list (string * Args)) :
  length (FakeLLM.create_calls stringify toolCalls) = length toolCalls
  ∧ FakeLLM.name <$> FakeLLM.create_calls stringify toolCalls = toolCalls.*1
  ∧ FakeLLM.args <$> FakeLLM.create_calls stringify toolCalls
    = stringify <$> toolCalls.*2
  ∧ (∀ i call, FakeLLM.create_calls stringify toolCalls !! i = Some call →
               FakeLLM.callId call = "fake_call_" +:+ pretty i)
  ∧ NoDup (FakeLLM.callId <$> FakeLLM.create_calls stringify toolCalls).
Proof.
  unfold FakeLLM.create_calls.
  assert (∀ i call,
            imap (λ index tc, FakeLLM.mkFunctionCall
                    ("fake_call_" +:+ pretty index) tc.1 (stringify tc.2))
              toolCalls !! i = Some call →
            FakeLLM.callId call = "fake_call_" +:+ pretty i) as Hid.
  { intros i call. rewrite list_lookup_imap.
    destruct (toolCalls !! i); [|done]. by intros [= <-]. }
  split_and!.
  - apply length_imap.
  - apply list_eq. intros i. rewrite !list_lookup_fmap, list_lookup_imap.
    by destruct (toolCalls !! i).
  - apply list_eq. intros i. rewrite !list_lookup_fmap, list_lookup_imap.
    by destruct (toolCalls !! i).
  - exact Hid.
  - apply NoDup_alt. intros i j x. rewrite !list_lookup_fmap.
    destruct (imap _ toolCalls !! i) as [ci|] eqn:Hi; [|done].
    destruct (imap _ toolCalls !! j) as [cj|] eqn:Hj; [|done].
    cbn. intros [= <-] [= Heq].
    rewrite (Hid _ _ Hi), (Hid _ _ Hj) in Heq.
    apply (inj (String.append "fake_call_")) in Heq.
    by apply (inj pretty) in Heq.
Qed.

(** ** The input text *)







(** X15.  [getInputText] throws on an empty context.  When no system
    message ends in an instructions line, the last item alone decides: the
    text of a user message (empty when it has none), the output of a
    function call output, and the error "No input text found" for anything
    else. *)
Theorem getInputText_reads_last_item :
  FakeLLM.getInputText [] = inr (new_Error "No input text found")
  ∧ ∀ items item,
      Forall (λ i, FakeLLM.instructions_line i = None) (items ++ [item]) →
      FakeLLM.getInputText (items ++ [item])
      = match item with
        | FakeLLM.ChatMessage FakeLLM.user textContent =>
            inl (default "" textContent)
        | FakeLLM.FunctionCallOutput output => inl output
        | _ => inr (new_Error "No input text found")
        end.
Proof.
  split; [done|]. intros items item Hnone. unfold FakeLLM.getInputText.
  rewrite decide_False by (rewrite length_app; cbn; lia).
  assert (list_find (λ i, is_Some (FakeLLM.instructions_line i))
            (items ++ [item]) = None) as ->.
  { apply list_find_None. eapply Forall_impl; [exact Hnone|].
    intros i ->. by intros [? ?]. }
  rewrite last_snoc. by destruct item as [[] ?| | |].
Qed.

Lemma getInputText_reads_last_item_witness :
  FakeLLM.getInputText
    ([FakeLLM.ChatMessage FakeLLM.system (Some "instructions: one line");
      FakeLLM.ChatMessage FakeLLM.user (Some "hello")]
     ++ [FakeLLM.FunctionCallOutput "recorded"])
  = inl "recorded".
Proof.
  destruct getInputText_reads_last_item as [_ H].
  apply (H [FakeLLM.ChatMessage FakeLLM.system (Some "instructions: one line");
            FakeLLM.ChatMessage FakeLLM.user (Some "hello")]
           (FakeLLM.FunctionCallOutput "recorded")).
  by repeat constructor.
Defined.

(** ** The stream *)

Lemma stream_text_app chunks1 chunks2 :
  FakeLLM.stream_text (chunks1 ++ chunks2)
  = FakeLLM.stream_text chunks1 +:+ FakeLLM.stream_text chunks2.
Proof.
  unfold FakeLLM.stream_text. induction chunks1 as [|c chunks1 IH]; [done|].
  cbn [app foldr]. by rewrite IH, string_app_assoc.
Qed.

(** X16.  [run()] throws what [getInputText] throws and puts nothing on
    the queue for an input the fake has no response for.  For a response,
    the text of the chunks put together is the content of the response
    (empty when it has none), the function calls are those of the response,
    and they come in one chunk without text, the last one; a response
    without calls gives no such chunk. *)
Theorem FakeLLM_stream_carries_the_response {Args} (stringify : Args → string)
    (fake : list (string * FakeLLM.FakeLLMResponse Args))
    (items : list FakeLLM.ChatItem) :
  match FakeLLM.getInputText items with
  | inr e => FakeLLM.run stringify fake items = inr e
  | inl input =>
      match FakeLLM.lookup fake input with
      | None => FakeLLM.run stringify fake items = inl []
      | Some decision =>
          ∃ chunks,
            FakeLLM.run stringify fake items = inl chunks
            ∧ FakeLLM.stream_text chunks = default "" (FakeLLM.content decision)
            ∧ FakeLLM.stream_calls chunks
              = FakeLLM.create_calls stringify
                  (default [] (FakeLLM.toolCalls decision))
            ∧ ∀ i chunk,
                chunks !! i = Some chunk →
                is_Some (FakeLLM.delta_toolCalls chunk) →
                S i = length chunks ∧ FakeLLM.delta_content chunk = None
      end
  end.
Proof.
  unfold FakeLLM.run.
  destruct (FakeLLM.getInputText items) as [input|e]; [|done].
  destruct (FakeLLM.lookup fake input) as [decision|]; [|done].
  eexists. split; [done|]. unfold FakeLLM.put_decision.
  set (content := default "" (FakeLLM.content decision)).
  destruct (put_content_chunks (String.length content) "" content)
    as (cs & Hput & Htext & _); [done|].
  change (FakeLLM.put_content (String.length content) (String.length "")
            ("" +:+ content))
    with (FakeLLM.put_content (String.length content) 0 content) in Hput.
  rewrite Hput. clear Hput.
  assert (FakeLLM.stream_text
            ((λ c, FakeLLM.mkChunk "fake" FakeLLM.assistant (Some c) None) <$> cs)
          = content) as Hst.
  { rewrite <- Htext. clear. induction cs as [|c cs IH]; [done|].
    rewrite fmap_cons. unfold FakeLLM.stream_text in *. cbn [foldr].
    by rewrite IH. }
  assert (FakeLLM.stream_calls
            ((λ c, FakeLLM.mkChunk "fake" FakeLLM.assistant (Some c) None) <$> cs)
          = []) as Hsc.
  { clear. unfold FakeLLM.stream_calls. by induction cs as [|c cs IH]. }
  assert (∀ i chunk,
            ((λ c, FakeLLM.mkChunk "fake" FakeLLM.assistant (Some c) None) <$> cs)
              !! i = Some chunk →
            FakeLLM.delta_toolCalls chunk = None) as Hnone.
  { intros i chunk. rewrite list_lookup_fmap.
    destruct (cs !! i); [|done]. by intros [= <-]. }
  split_and!.
  - rewrite stream_text_app, Hst.
    destruct (FakeLLM.toolCalls decision) as [[|tc tcs]|];
      by rewrite string_app_nil_r.
  - unfold FakeLLM.stream_calls in *. rewrite bind_app, Hsc.
    destruct (FakeLLM.toolCalls decision) as [[|tc tcs]|]; try done.
    cbn [mbind list_bind app default from_option FakeLLM.delta_toolCalls].
    by rewrite app_nil_r.
  - intros i chunk Hi [calls Hcalls].
    destruct (decide (i < length cs)) as [Hlt|Hge].
    { rewrite lookup_app_l in Hi by (by rewrite length_fmap).
      apply Hnone in Hi. congruence. }
    rewrite lookup_app_r in Hi by (rewrite length_fmap; lia).
    rewrite length_fmap in Hi. rewrite length_app, length_fmap.
    destruct (FakeLLM.toolCalls decision) as [[|tc tcs]|];
      try (by destruct (i - length cs)).
    destruct (i - length cs) as [|n] eqn:E; [|done].
    injection Hi as <-. cbn. split; [lia|done].
Qed.
